(** * piicatcher.scanner: the three PII scanners

    A shallow embedding of [piicatcher/scanner.py]: the abstract [Scanner]
    contract and its three implementations [RegexScanner], [NERScanner] and
    [ColumnNameScanner], together with a model of the part of Python's [re]
    module that [ColumnNameScanner] relies on.

    Conventions of the embedding:
    - a [str] is a sequence of Unicode code points;
    - a method is a computation in the monad [M]: it reads and may write the
      attributes of its receiver, appends to the debug log, and returns a
      value or raises;
    - a Python [set] of tags is a [gset PiiTypes]; [list(types)] is
      [elements types], one fixed enumeration of the set (Python leaves the
      order open);
    - a call into [commonregex] or [spacy] returns a value or raises. *)

From Stdlib Require Import Ascii String NArith.
From stdpp Require Import base decidable option list countable gmap strings.

Local Open Scope string_scope.
Local Open Scope list_scope.

(** ** Strings *)

(** A Python [str]. *)
Abbreviation str := (list N).

(** [ord(c)] of a character below 256. *)
Definition ord (c : ascii) : N := N_of_ascii c.

(** A literal of the program text as a [str]. *)
Definition py (s : string) : str := ord <$> list_ascii_of_string s.

(** ** PiiTypes *)

(** Modelled from the spec: the enumeration is declared in
    [piicatcher/piitypes.py], which is not among the sources; the spec calls
    it a closed set of category tags.  The members below are exactly those
    that [scanner.py] refers to. *)
Inductive PiiTypes :=
| PHONE | EMAIL | CREDIT_CARD | ADDRESS | PERSON | LOCATION | BIRTH_DATE
| GENDER | NATIONALITY | SSN | USER_NAME | PASSWORD.

#[export] Instance PiiTypes_eq_dec : EqDecision PiiTypes.
Proof. solve_decision. Defined.

Definition PiiTypes_to_nat (t : PiiTypes) : nat :=
  match t with
  | PHONE => 0 | EMAIL => 1 | CREDIT_CARD => 2 | ADDRESS => 3 | PERSON => 4
  | LOCATION => 5 | BIRTH_DATE => 6 | GENDER => 7 | NATIONALITY => 8
  | SSN => 9 | USER_NAME => 10 | PASSWORD => 11
  end.

Definition PiiTypes_of_nat (n : nat) : option PiiTypes :=
  match n with
  | 0 => Some PHONE | 1 => Some EMAIL | 2 => Some CREDIT_CARD
  | 3 => Some ADDRESS | 4 => Some PERSON | 5 => Some LOCATION
  | 6 => Some BIRTH_DATE | 7 => Some GENDER | 8 => Some NATIONALITY
  | 9 => Some SSN | 10 => Some USER_NAME | 11 => Some PASSWORD
  | _ => None
  end.

#[export] Instance PiiTypes_countable : Countable PiiTypes.
Proof.
  apply (inj_countable PiiTypes_to_nat PiiTypes_of_nat).
  intros []; reflexivity.
Defined.

(** [str(x)] of an enum member, as the debug messages print it. *)
Definition PiiTypes_str (t : PiiTypes) : str :=
  py "PiiTypes." ++
  py match t with
     | PHONE => "PHONE" | EMAIL => "EMAIL" | CREDIT_CARD => "CREDIT_CARD"
     | ADDRESS => "ADDRESS" | PERSON => "PERSON" | LOCATION => "LOCATION"
     | BIRTH_DATE => "BIRTH_DATE" | GENDER => "GENDER"
     | NATIONALITY => "NATIONALITY" | SSN => "SSN" | USER_NAME => "USER_NAME"
     | PASSWORD => "PASSWORD"
     end.

(** ** Exceptions and the interpreter monad *)

(** The exceptions the modelled code could raise or pass on.  [Unsupported]
    is not a Python exception: it marks a pattern that uses [re] syntax
    outside the fragment modelled in module [re] below. *)
Inductive exn :=
| KeyError
| IndexError
| AttributeError
| ValueError (msg : string)
| re_error (msg : string)
| Unsupported.

(** A computation over the attributes [St] of the receiver and the debug
    log (the messages handed to [logging.debug], in order): it returns a
    value or raises, and hands back the attributes and the log. *)
Record world (St : Type) := World { obj : St; log : list str }.
Arguments World {St} _ _.
Arguments obj {St} _.
Arguments log {St} _.

Definition M (St A : Type) : Type := world St → (exn + A) * world St.

Definition ret {St A} (a : A) : M St A := λ w, (inr a, w).

Definition bind {St A B} (m : M St A) (k : A → M St B) : M St B :=
  λ w, match m w with
       | (inr a, w') => k a w'
       | (inl e, w') => (inl e, w')
       end.

Definition raise {St A} (e : exn) : M St A := λ w, (inl e, w).

Definition get_self {St} : M St St := λ w, (inr (obj w), w).

Definition set_self {St} (s : St) : M St unit :=
  λ w, (inr tt, World s (log w)).

(** [logging.debug(msg)] *)
Definition logging_debug {St} (msg : str) : M St unit :=
  λ w, (inr tt, World (obj w) (log w ++ [msg])).

(** A call that returns or raises and touches nothing else. *)
Definition lift {St A} (r : exn + A) : M St A := λ w, (r, w).

Declare Scope py_scope.
Delimit Scope py_scope with py.
Notation "'let!' x ':=' c1 'in' c2" := (bind c1 (λ x, c2))
  (at level 10, x name, c1 at level 100, c2 at level 200) : py_scope.
Notation "'run!' c1 'in' c2" := (bind c1 (λ _, c2))
  (at level 10, c1 at level 100, c2 at level 200) : py_scope.

(** [for x in xs: acc = body x acc] with a loop-carried local. *)
Fixpoint for_each {St A B} (xs : list A) (body : A → B → M St B) (acc : B)
  : M St B :=
  match xs with
  | [] => ret acc
  | x :: xs' => bind (body x acc) (for_each xs' body)
  end.

(** [sep.join(parts)] *)
Fixpoint str_join (sep : str) (parts : list str) : str :=
  match parts with
  | [] => []
  | [p] => p
  | p :: ps => p ++ sep ++ str_join sep ps
  end.

(** ** A model of the [re] module

    The fragment of the pattern syntax covered is the one the rule table of
    [ColumnNameScanner] is written in: literal characters below code point
    128, [.], [^], [$], [|], groups [( )] and the greedy [*]; no flag but
    [IGNORECASE] is used, so [.] stops at a line feed, [^] holds at offset
    0 only and [$] at the end of the text or before its final line feed.
    The subject is any [str].  A run of a pattern from a position yields
    the positions where it can end. *)
Module re.

Inductive regex :=
| Eps
| Lit (c : N)
| Dot
| Bol
| Eol
| Seq (r1 r2 : regex)
| Alt (r1 r2 : regex)
| Star (r : regex)
| Group (r : regex).

Record RegexFlag := { ignorecase : bool }.
Definition NOFLAG : RegexFlag := {| ignorecase := false |}.
Definition IGNORECASE : RegexFlag := {| ignorecase := true |}.

(** A compiled pattern object. *)
Record Pattern := { ast : regex; flags : RegexFlag }.

(** A match object; what it records of the match is not modelled. *)
Inductive Match := MatchObject.

(** *** Parsing *)

(** One nesting level under construction: the branches already closed by
    [|] and the items of the branch being read, both most recent first. *)
Record frame := Frame { branches : list regex; items : list regex }.

Definition empty_frame : frame := Frame [] [].

Fixpoint seq_of (rs : list regex) : regex :=
  match rs with
  | [] => Eps
  | [r] => r
  | r :: rs' => Seq r (seq_of rs')
  end.

Fixpoint alt_of (rs : list regex) : regex :=
  match rs with
  | [] => Eps
  | [r] => r
  | r :: rs' => Alt r (alt_of rs')
  end.

Definition push_item (r : regex) (f : frame) : frame :=
  Frame (branches f) (r :: items f).

Definition close_branch (f : frame) : frame :=
  Frame (seq_of (rev (items f)) :: branches f) [].

Definition finish (f : frame) : regex :=
  alt_of (rev (branches (close_branch f))).

Definition atom (c : N) : regex :=
  if N.eqb c (ord ".") then Dot
  else if N.eqb c (ord "^") then Bol
  else if N.eqb c (ord "$") then Eol
  else Lit c.

(** Characters outside the modelled fragment: the metacharacters whose
    syntax is not covered, and every character from code point 128 on. *)
Definition unsupported_char (c : N) : bool :=
  existsb (N.eqb c) (ord <$> ["+"; "?"; "["; "{"; "\"]%char)
  || (128 <=? c)%N.

Fixpoint parse (s : str) (cur : frame) (stack : list frame)
  : exn + regex :=
  match s with
  | [] =>
      match stack with
      | [] => inr (finish cur)
      | _ :: _ => inl (re_error "missing ), unterminated subpattern")
      end
  | c :: s' =>
      if N.eqb c (ord "(") then parse s' empty_frame (cur :: stack)
      else if N.eqb c (ord ")") then
        match stack with
        | [] => inl (re_error "unbalanced parenthesis")
        | parent :: stack' =>
            parse s' (push_item (Group (finish cur)) parent) stack'
        end
      else if N.eqb c (ord "|") then parse s' (close_branch cur) stack
      else if N.eqb c (ord "*") then
        match items cur with
        | [] => inl (re_error "nothing to repeat")
        | Bol :: _ | Eol :: _ => inl (re_error "nothing to repeat")
        | Star _ :: _ => inl (re_error "multiple repeat")
        | it :: its => parse s' (Frame (branches cur) (Star it :: its)) stack
        end
      else if unsupported_char c then inl Unsupported
      else parse s' (push_item (atom c) cur) stack
  end.

(** [re.compile(pattern, flags)] *)
Definition compile (pattern : str) (fl : RegexFlag) : exn + Pattern :=
  match parse pattern empty_frame [] with
  | inr r => inr {| ast := r; flags := fl |}
  | inl e => inl e
  end.

(** *** Matching *)

Definition newline : N := 10.

(** The key under which the engine compares a character of the subject
    with a literal below 128 when [IGNORECASE] is set: a capital ASCII
    letter goes to its small letter, and so do the four code points
    outside ASCII that the engine equates with an ASCII letter: U+017F
    (long s) with [s], U+212A (Kelvin sign) with [k], U+0130 and U+0131
    (dotted capital and dotless small i) with [i]. *)
Definition fold (x : N) : N :=
  if ((65 <=? x) && (x <=? 90))%N then (x + 32)%N
  else if (x =? 383)%N then ord "s"
  else if (x =? 8490)%N then ord "k"
  else if ((x =? 304) || (x =? 305))%N then ord "i"
  else x.

(** Does the text character [x] match the pattern literal [c]? *)
Definition lit_match (fl : RegexFlag) (c x : N) : bool :=
  if ignorecase fl then N.eqb (fold x) (fold c) else N.eqb x c.

(** A position in the subject: how many characters lie behind it and the
    text that lies ahead. *)
Definition mstate : Type := nat * str.

Definition at_eol (rest : str) : bool :=
  match rest with
  | [] => true
  | [c] => N.eqb c newline
  | _ => false
  end.

(** The greedy loop of [r*]: [step] runs the body once.  An iteration
    that consumes nothing is not repeated, so at most one iteration per
    remaining character is ever taken; [fuel] is that bound. *)
Fixpoint star_iter (step : mstate → list mstate) (fuel : nat) (st : mstate)
  : list mstate :=
  match fuel with
  | O => [st]
  | S fuel' =>
      flat_map
        (λ st', if (st.1 <? st'.1)%nat then star_iter step fuel' st' else [])
        (step st)
      ++ [st]
  end.

Fixpoint run (fl : RegexFlag) (r : regex) (st : mstate) {struct r}
  : list mstate :=
  match r with
  | Eps => [st]
  | Lit c =>
      match st.2 with
      | x :: rest => if lit_match fl c x then [(S st.1, rest)] else []
      | [] => []
      end
  | Dot =>
      match st.2 with
      | x :: rest => if N.eqb x newline then [] else [(S st.1, rest)]
      | [] => []
      end
  | Bol => if (st.1 =? 0)%nat then [st] else []
  | Eol => if at_eol st.2 then [st] else []
  | Seq r1 r2 => flat_map (run fl r2) (run fl r1 st)
  | Alt r1 r2 => run fl r1 st ++ run fl r2 st
  | Group r1 => run fl r1 st
  | Star r1 => star_iter (run fl r1) (length st.2) st
  end.

(** [pattern.match(text)]: a match object when the pattern can end
    somewhere, started at offset 0; [None] otherwise. *)
Definition match_ (p : Pattern) (text : str) : option Match :=
  match run (flags p) (ast p) (0%nat, text) with
  | _ :: _ => Some MatchObject
  | [] => None
  end.

(** [pattern.fullmatch(text)]: a match object when the pattern can end at
    the end of the text. *)
Definition fullmatch (p : Pattern) (text : str) : option Match :=
  match filter (λ st : mstate, st.2 = [])
               (run (flags p) (ast p) (0%nat, text)) with
  | _ :: _ => Some MatchObject
  | [] => None
  end.

(** *** What a pattern denotes

    [matches fl r pos w rest]: in a subject where [pos] characters precede
    [w] and [rest] follows it, the pattern [r] matches exactly the
    stretch [w].  The position and the rest are what [^] and [$] look
    at. *)
Inductive matches (fl : RegexFlag)
  : regex → nat → str → str → Prop :=
| matches_eps pos rest :
    matches fl Eps pos [] rest
| matches_lit c x pos rest :
    lit_match fl c x = true → matches fl (Lit c) pos [x] rest
| matches_dot x pos rest :
    x ≠ newline → matches fl Dot pos [x] rest
| matches_bol rest :
    matches fl Bol 0 [] rest
| matches_eol pos rest :
    at_eol rest = true → matches fl Eol pos [] rest
| matches_seq r1 r2 pos w1 w2 rest :
    matches fl r1 pos w1 (w2 ++ rest) →
    matches fl r2 (pos + length w1) w2 rest →
    matches fl (Seq r1 r2) pos (w1 ++ w2) rest
| matches_alt_l r1 r2 pos w rest :
    matches fl r1 pos w rest → matches fl (Alt r1 r2) pos w rest
| matches_alt_r r1 r2 pos w rest :
    matches fl r2 pos w rest → matches fl (Alt r1 r2) pos w rest
| matches_group r pos w rest :
    matches fl r pos w rest → matches fl (Group r) pos w rest
| matches_star_nil r pos rest :
    matches fl (Star r) pos [] rest
| matches_star_cons r pos w1 w2 rest :
    w1 ≠ [] →
    matches fl r pos w1 (w2 ++ rest) →
    matches fl (Star r) (pos + length w1) w2 rest →
    matches fl (Star r) pos (w1 ++ w2) rest.

(** The pattern matches some prefix of [text], starting at offset 0. *)
Definition matches_prefix (p : Pattern) (text : str) : Prop :=
  ∃ w rest, text = w ++ rest ∧ matches (flags p) (ast p) 0 w rest.

(** The pattern matches [text] from its first to its last character. *)
Definition matches_whole (p : Pattern) (text : str) : Prop :=
  matches (flags p) (ast p) 0 text [].

End re.

(** ** The scanner contract *)

(** [class Scanner(ABC)]: one abstract method, [scan(self, text)], which
    runs against the receiver's attributes. *)
Class Scanner (Self : Type) := scan : str → M Self (list PiiTypes).

(** Truth value of a Python sequence. *)
Definition truthy {A} (l : list A) : bool :=
  match l with
  | [] => false
  | _ :: _ => true
  end.

(** ** The [commonregex] library

    The library is not part of the sources.  [RegexScanner] builds a
    [CommonRegex(text)] object and reads four of its attributes.  As the
    library has it, every attribute starts out as the matcher method of
    its kind; the constructor then, under [if text:], replaces each by the
    list of matches that method finds in the text.  For the empty text the
    methods stay in place.  What the matchers find is a parameter. *)

(** The value of an attribute: a list of matches, or a bound method. *)
Inductive attr :=
| Matches (found : list str)
| BoundMethod.

(** Truth value of an attribute: a method object is true. *)
Definition attr_truthy (a : attr) : bool :=
  match a with
  | Matches found => truthy found
  | BoundMethod => true
  end.

(** The attributes of a [CommonRegex] object that [RegexScanner.scan]
    reads. *)
Record CommonRegexObj := {
  phones : attr;
  emails : attr;
  credit_cards : attr;
  street_addresses : attr
}.

(** What the four matchers find in a text. *)
Record Found := {
  found_phones : list str;
  found_emails : list str;
  found_credit_cards : list str;
  found_street_addresses : list str
}.

Module commonregex.

Section CommonRegex.
(** The matchers run over a text: what they find, or the exception one of
    them raises. *)
Variable findall : str → exn + Found.

(** [CommonRegex(text)] *)
Definition CommonRegex (text : str) : exn + CommonRegexObj :=
  if truthy text then
    match findall text with
    | inr f =>
        inr {| phones := Matches (found_phones f);
               emails := Matches (found_emails f);
               credit_cards := Matches (found_credit_cards f);
               street_addresses := Matches (found_street_addresses f) |}
    | inl e => inl e
    end
  else
    inr {| phones := BoundMethod;
           emails := BoundMethod;
           credit_cards := BoundMethod;
           street_addresses := BoundMethod |}.
End CommonRegex.

End commonregex.

(** ** RegexScanner *)

Module RegexScanner.

(** The class has no attributes. *)
Record t := New {}.

Section scan.
(** The constructor [CommonRegex] the module imports. *)
Variable CommonRegex : str → exn + CommonRegexObj.

Definition scan (text : str) : M t (list PiiTypes) :=
  (let! regex_result := lift (CommonRegex text) in
   let types := [] in
   let types :=
     if attr_truthy (phones regex_result) then types ++ [PHONE]
     else types in
   let types :=
     if attr_truthy (emails regex_result) then types ++ [EMAIL]
     else types in
   let types :=
     if attr_truthy (credit_cards regex_result) then types ++ [CREDIT_CARD]
     else types in
   let types :=
     if attr_truthy (street_addresses regex_result) then types ++ [ADDRESS]
     else types in
   ret types)%py.
End scan.

End RegexScanner.

#[export] Instance RegexScanner_Scanner
  (CommonRegex : str → exn + CommonRegexObj) : Scanner RegexScanner.t :=
  RegexScanner.scan CommonRegex.

(** ** NERScanner *)

(** What [scan] reads of a spaCy document: the labels of its entities. *)
Record Span := { label_ : str }.
Record Doc := { ents : list Span }.

Module NERScanner.

(** [self.nlp], the loaded pipeline: called on a text it returns a
    document or raises. *)
Record t := New { nlp : str → exn + Doc }.

Definition scan (text : str) : M t (list PiiTypes) :=
  (run! logging_debug (py "Processing '" ++ text ++ py "'") in
   let! self := get_self in
   let! doc := lift (nlp self text) in
   let! types :=
     for_each (ents doc) (λ ent (types : gset PiiTypes),
       run! logging_debug (py "Found " ++ label_ ent) in
       let types :=
         if bool_decide (label_ ent = py "PERSON") then types ∪ {[PERSON]}
         else types in
       let types :=
         if bool_decide (label_ ent = py "GPE") then types ∪ {[LOCATION]}
         else types in
       let types :=
         if bool_decide (label_ ent = py "DATE") then types ∪ {[BIRTH_DATE]}
         else types in
       ret types) ∅ in
   run! logging_debug
     (py "PiiTypes are "
      ++ str_join (py ",") (PiiTypes_str <$> elements types)) in
   ret (elements types))%py.

End NERScanner.

#[export] Instance NERScanner_Scanner : Scanner NERScanner.t :=
  NERScanner.scan.

(** ** ColumnNameScanner *)

(** A Python [dict] as its items in insertion order. *)
Definition dict (K V : Type) : Type := list (K * V).

Definition dict_keys {K V} (d : dict K V) : list K := d.*1.

Fixpoint dict_get {K V} `{EqDecision K} (d : dict K V) (k : K) : option V :=
  match d with
  | [] => None
  | (k', v) :: d' => if decide (k' = k) then Some v else dict_get d' k
  end.

(** [d[k]] *)
Definition dict_getitem {St K V} `{EqDecision K} (d : dict K V) (k : K)
  : M St V :=
  match dict_get d k with
  | Some v => ret v
  | None => raise KeyError
  end.

Definition is_None {A} (o : option A) : bool :=
  match o with None => true | Some _ => false end.

Definition is_not_None {A} (o : option A) : bool := negb (is_None o).

Module ColumnNameScanner.

(** The patterns of the class attribute [regex], as written. *)
Definition regex_source : dict PiiTypes string := [
  (PERSON,
    "^.*(firstname|fname|lastname|lname|"
    +:+ "fullname|maidenname|_name|"
    +:+ "nickname|name_suffix|name).*$");
  (EMAIL, "^.*(email|e-mail|mail).*$");
  (BIRTH_DATE,
    "^.*(date_of_birth|dateofbirth|dob|"
    +:+ "birthday|date_of_death|dateofdeath).*$");
  (GENDER, "^.*(gender).*$");
  (NATIONALITY, "^.*(nationality).*$");
  (ADDRESS,
    "^.*(addr|state|county|country|"
    +:+ "zipcode|postal|zone|borough|line1|line_|line2|pincode|landmark|contact).*$");
  (USER_NAME, "^.*user(id|name|).*$");
  (PASSWORD, "^.*(pass|access_token).*$");
  (SSN, "^.*(ssn|social|aadhar|adhaar|aadhaar|pan).*$");
  (PHONE, "^.*(phone|mobile|mob_).*$");
  (LOCATION, "^.*(location|lat|lon).*$")
].

(** Evaluation of the dict display: every value is
    [re.compile(..., re.IGNORECASE)]. *)
Fixpoint compile_all (src : dict PiiTypes string)
  : exn + dict PiiTypes re.Pattern :=
  match src with
  | [] => inr []
  | (k, pat) :: src' =>
      match re.compile (py pat) re.IGNORECASE with
      | inl e => inl e
      | inr p =>
          match compile_all src' with
          | inl e => inl e
          | inr d => inr ((k, p) :: d)
          end
      end
  end.

(** The class attribute [regex]. *)
Definition regex : dict PiiTypes re.Pattern :=
  Eval vm_compute in
    match compile_all regex_source with
    | inr d => d
    | inl _ => []
    end.

(** The instance attribute [_exclude_regex], and the class attribute
    [regex] as an instance sees it through [self.regex]. *)
Record t := New {
  _exclude_regex : option re.Pattern;
  self_regex : dict PiiTypes re.Pattern
}.

(** [__init__(self, exclude_regex=())] *)
Definition __init__ (exclude_regex : list str) : M t unit :=
  (let! self := get_self in
   run! set_self (New None (self_regex self)) in
   if (0 <? length exclude_regex)%nat then
     let! first :=
       match exclude_regex !! 0%nat with
       | Some p => ret p
       | None => raise IndexError
       end in
     let! compiled := lift (re.compile first re.IGNORECASE) in
     let! self := get_self in
     set_self (New (Some compiled) (self_regex self))
   else ret tt)%py.

Definition scan (text : str) : M t (list PiiTypes) :=
  (let! self := get_self in
   let! types :=
     match _exclude_regex self with
     | Some _ =>
         for_each (dict_keys (self_regex self))
           (λ pii_type (types : gset PiiTypes),
              let! self := get_self in
              let! rule := dict_getitem (self_regex self) pii_type in
              let! exclude :=
                match _exclude_regex self with
                | Some e => ret e
                | None => raise AttributeError
                end in
              if is_not_None (re.match_ rule text)
                 && is_None (re.match_ exclude text)
              then ret (types ∪ {[pii_type]})
              else ret types) ∅
     | None =>
         for_each (dict_keys (self_regex self))
           (λ pii_type (types : gset PiiTypes),
              let! self := get_self in
              let! rule := dict_getitem (self_regex self) pii_type in
              if is_not_None (re.match_ rule text)
              then ret (types ∪ {[pii_type]})
              else ret types) ∅
     end in
   run! logging_debug
     (py "PiiTypes are "
      ++ str_join (py ",") (PiiTypes_str <$> elements types)) in
   ret (elements types))%py.

(** [ColumnNameScanner(exclude_regex)]: a fresh instance, initialised. *)
Definition fresh : t := New None regex.

Definition new (exclude_regex : list str) (log0 : list str)
  : (exn + unit) * world t :=
  __init__ exclude_regex (World fresh log0).

End ColumnNameScanner.

#[export] Instance ColumnNameScanner_Scanner : Scanner ColumnNameScanner.t :=
  ColumnNameScanner.scan.

(** ** Derived notions used in the statements *)

(** The debug line [scan] writes before it returns. *)
Definition types_message (types : gset PiiTypes) : str :=
  py "PiiTypes are " ++ str_join (py ",") (PiiTypes_str <$> elements types).

(** Does the rule of [pii_type] fire on [text] for the receiver [self]? *)
Definition rule_fires (self : ColumnNameScanner.t) (text : str)
  (pii_type : PiiTypes) : bool :=
  match dict_get (ColumnNameScanner.self_regex self) pii_type with
  | Some rule =>
      is_not_None (re.match_ rule text)
      && match ColumnNameScanner._exclude_regex self with
         | Some exclude => is_None (re.match_ exclude text)
         | None => true
         end
  | None => false
  end.

(** The value of the local [types] when the loop of
    [ColumnNameScanner.scan] is over. *)
Definition found_types (self : ColumnNameScanner.t) (text : str)
  : gset PiiTypes :=
  list_to_set
    (filter (λ k, rule_fires self text k)
       (dict_keys (ColumnNameScanner.self_regex self))).

(** *** Rules as token lists *)

(** The one-character string holding a line feed. *)
Definition LF : str := [re.newline].

(** [text] holds no line feed. *)
Definition single_line (text : str) : Prop := re.newline ∉ text.

(** [s.startswith(sub)] and [sub in s]. *)
Fixpoint startswith (sub s : str) : bool :=
  match sub, s with
  | [], _ => true
  | c :: sub', x :: s' => N.eqb c x && startswith sub' s'
  | _ :: _, [] => false
  end.

Fixpoint contains (sub s : str) : bool :=
  startswith sub s
  || match s with
     | [] => false
     | _ :: s' => contains sub s'
     end.

(** [tok] occurs in [text] when case is disregarded, characters being
    compared the way the engine compares them under [IGNORECASE]: by their
    key [re.fold]. *)
Definition ci_contains (tok text : str) : bool :=
  contains (re.fold <$> tok) (re.fold <$> text).

(** The tokens of each category: the alternatives its rule lists between
    [^.*] and [.*$]. *)
Definition tokens (ty : PiiTypes) : list str :=
  py <$>
  match ty with
  | PERSON =>
      ["firstname"; "fname"; "lastname"; "lname"; "fullname"; "maidenname";
       "_name"; "nickname"; "name_suffix"; "name"]
  | EMAIL => ["email"; "e-mail"; "mail"]
  | BIRTH_DATE =>
      ["date_of_birth"; "dateofbirth"; "dob"; "birthday"; "date_of_death";
       "dateofdeath"]
  | GENDER => ["gender"]
  | NATIONALITY => ["nationality"]
  | ADDRESS =>
      ["addr"; "state"; "county"; "country"; "zipcode"; "postal"; "zone";
       "borough"; "line1"; "line_"; "line2"; "pincode"; "landmark";
       "contact"]
  | USER_NAME => ["userid"; "username"; "user"]
  | PASSWORD => ["pass"; "access_token"]
  | SSN => ["ssn"; "social"; "aadhar"; "adhaar"; "aadhaar"; "pan"]
  | PHONE => ["phone"; "mobile"; "mob_"]
  | LOCATION => ["location"; "lat"; "lon"]
  | CREDIT_CARD => []
  end.

(** Patterns built from literals, concatenation, alternation and groups
    only, and the finitely many words such a pattern spells. *)
Fixpoint simple (r : re.regex) : bool :=
  match r with
  | re.Eps | re.Lit _ => true
  | re.Seq r1 r2 | re.Alt r1 r2 => simple r1 && simple r2
  | re.Group r1 => simple r1
  | re.Dot | re.Bol | re.Eol | re.Star _ => false
  end.

Fixpoint words (r : re.regex) : list str :=
  match r with
  | re.Eps => [[]]
  | re.Lit c => [[c]]
  | re.Seq r1 r2 =>
      flat_map (λ w1, map (λ w2, w1 ++ w2) (words r2)) (words r1)
  | re.Alt r1 r2 => words r1 ++ words r2
  | re.Group r1 => words r1
  | re.Dot | re.Bol | re.Eol | re.Star _ => []
  end.

(** For a pattern tail of the shape [x1 ... xn .* $] with simple [xi],
    the part before [.*$]. *)
Definition is_dotstar_eol (t : re.regex) : bool :=
  match t with
  | re.Seq (re.Star re.Dot) re.Eol => true
  | _ => false
  end.

Fixpoint tail_body (t : re.regex) : option re.regex :=
  if is_dotstar_eol t then Some re.Eps
  else
    match t with
    | re.Seq a t' =>
        if simple a then
          match tail_body t' with
          | Some b => Some (re.Seq a b)
          | None => None
          end
        else None
    | _ => None
    end.

(** For a pattern of the shape [^ .* x1 ... xn .* $], the part between
    [^.*] and [.*$]. *)
Definition rule_body (r : re.regex) : option re.regex :=
  match r with
  | re.Seq re.Bol (re.Seq (re.Star re.Dot) t) => tail_body t
  | _ => None
  end.

(** *** Sequences of calls *)

(** A series of [scan] calls on one receiver, the results dropped. *)
Fixpoint run_calls {Self} (sc : Scanner Self) (texts : list str)
  (w : world Self) : world Self :=
  match texts with
  | [] => w
  | text :: texts' => run_calls sc texts' (sc text w).2
  end.

(** *** The entity-label table *)

(** The mapping from entity labels to tags that the description of the
    entity scanner lists: PERSON, GPE and DATE are mapped, every other
    label is dropped. *)
Definition label_to_pii (label : str) : option PiiTypes :=
  if bool_decide (label = py "PERSON") then Some PERSON
  else if bool_decide (label = py "GPE") then Some LOCATION
  else if bool_decide (label = py "DATE") then Some BIRTH_DATE
  else None.

(** The value of the local [types] when the loop of [NERScanner.scan] is
    over, in terms of that table. *)
Definition entity_types (doc : Doc) : gset PiiTypes :=
  list_to_set (omap (λ ent, label_to_pii (label_ ent)) (ents doc)).

(** *** Patterns that match the empty string *)

(** Can the pattern match without consuming anything, at offset 0 of any
    subject?  ([$] is left out: it depends on what follows.) *)
Fixpoint nullable (r : re.regex) : bool :=
  match r with
  | re.Eps | re.Bol | re.Star _ => true
  | re.Lit _ | re.Dot | re.Eol => false
  | re.Seq r1 r2 => nullable r1 && nullable r2
  | re.Alt r1 r2 => nullable r1 || nullable r2
  | re.Group r1 => nullable r1
  end.

(** *** Statements that are put to the test below *)

(** The exclusion filter takes a tag away only from inputs that its
    pattern matches from the first to the last character. *)
Definition exclusion_is_whole_string_anchored : Prop :=
  ∀ (exclude : re.Pattern) text lg ty,
    (∃ types,
       (ColumnNameScanner.scan text
          (World (ColumnNameScanner.New None ColumnNameScanner.regex) lg)).1
       = inr types ∧ ty ∈ types) →
    (∃ types,
       (ColumnNameScanner.scan text
          (World (ColumnNameScanner.New (Some exclude) ColumnNameScanner.regex)
             lg)).1
       = inr types ∧ ty ∉ types) →
    re.matches_whole exclude text.

(** Every rule is a plain case-insensitive substring test, on every
    input. *)
Definition rules_are_substring_tests : Prop :=
  ∀ ty rule text,
    dict_get ColumnNameScanner.regex ty = Some rule →
    (is_Some (re.match_ rule text) ↔
     ∃ tok, tok ∈ tokens ty ∧ ci_contains tok text = true).


(** * Properties *)
Section monad_facts.
Context {St : Type}.

Lemma bind_ret_l {A B} (a : A) (k : A → M St B) w :
  bind (ret a) k w = k a w.
Proof. reflexivity. Qed.

Lemma bind_get_self {B} (k : St → M St B) w :
  bind get_self k w = k (obj w) w.
Proof. reflexivity. Qed.

Lemma bind_debug {B} msg (k : unit → M St B) w :
  bind (logging_debug msg) k w = k tt (World (obj w) (log w ++ [msg])).
Proof. reflexivity. Qed.

Lemma bind_value {A B} (m : M St A) (k : A → M St B) w a w' :
  m w = (inr a, w') → bind m k w = k a w'.
Proof. intros H. unfold bind. by rewrite H. Qed.
End monad_facts.

Lemma dict_get_keys {K V} `{EqDecision K} (d : dict K V) k :
  k ∈ dict_keys d → is_Some (dict_get d k).
Proof.
  unfold dict_keys. induction d as [|[k' v] d IH]; simpl.
  - by intros ?%elem_of_nil.
  - intros [->|Hin]%elem_of_cons.
    + rewrite decide_True by done. eauto.
    + destruct (decide (k' = k)); eauto.
Qed.

Lemma dict_get_Some_keys {K V} `{EqDecision K} (d : dict K V) k v :
  dict_get d k = Some v → k ∈ dict_keys d.
Proof.
  unfold dict_keys. induction d as [|[k' v'] d IH]; simpl; [done|].
  destruct (decide (k' = k)) as [->|].
  - intros _. apply elem_of_cons. by left.
  - intros H. apply elem_of_cons. right. by apply IH.
Qed.

(** The loop of [ColumnNameScanner.scan], both variants at once: the loop
    body adds [k] exactly when [rule_fires], and leaves the world alone. *)
Lemma scan_loop text w (ks : list PiiTypes) (acc : gset PiiTypes) :
  (∀ k, k ∈ ks →
        is_Some (dict_get (ColumnNameScanner.self_regex (obj w)) k)) →
  match ColumnNameScanner._exclude_regex (obj w) with
  | Some _ =>
      for_each ks
        (λ pii_type (types : gset PiiTypes),
           let! self := get_self in
           let! rule :=
             dict_getitem (ColumnNameScanner.self_regex self) pii_type in
           let! exclude :=
             match ColumnNameScanner._exclude_regex self with
             | Some e => ret e
             | None => raise AttributeError
             end in
           if is_not_None (re.match_ rule text)
              && is_None (re.match_ exclude text)
           then ret (types ∪ {[pii_type]})
           else ret types)%py acc w
  | None =>
      for_each ks
        (λ pii_type (types : gset PiiTypes),
           let! self := get_self in
           let! rule :=
             dict_getitem (ColumnNameScanner.self_regex self) pii_type in
           if is_not_None (re.match_ rule text)
           then ret (types ∪ {[pii_type]})
           else ret types)%py acc w
  end
  = (inr (acc ∪ list_to_set (filter (λ k, rule_fires (obj w) text k) ks)), w).
Proof.
  revert acc. induction ks as [|k ks IH]; intros acc Hks.
  - rewrite filter_nil, list_to_set_nil, (right_id_L ∅ (∪)).
    by destruct (ColumnNameScanner._exclude_regex (obj w)).
  - assert (Hk : is_Some (dict_get (ColumnNameScanner.self_regex (obj w)) k)).
    { apply Hks, elem_of_cons. by left. }
    assert (Hks' : ∀ k', k' ∈ ks →
      is_Some (dict_get (ColumnNameScanner.self_regex (obj w)) k')).
    { intros k' Hin. apply Hks, elem_of_cons. by right. }
    destruct Hk as [rule Hrule].
    assert (Hf : rule_fires (obj w) text k =
      is_not_None (re.match_ rule text)
      && match ColumnNameScanner._exclude_regex (obj w) with
         | Some exclude => is_None (re.match_ exclude text)
         | None => true
         end) by (unfold rule_fires; by rewrite Hrule).
    rewrite filter_cons.
    specialize (IH (acc ∪ {[k]}) Hks') as IHadd.
    specialize (IH acc Hks') as IHskip.
    symmetry in Hf.
    destruct (ColumnNameScanner._exclude_regex (obj w)) as [ex|] eqn:Hex;
      simpl for_each;
      destruct (rule_fires (obj w) text k);
      (erewrite bind_value;
       [|rewrite bind_get_self; unfold dict_getitem;
         rewrite Hrule, ?Hex, !bind_ret_l; rewrite ?andb_true_r in Hf;
         rewrite Hf; reflexivity]).
    + rewrite IHadd, decide_True by done.
      by rewrite list_to_set_cons, (assoc_L (∪)).
    + rewrite IHskip, decide_False by (by intros []). done.
    + rewrite IHadd, decide_True by done.
      by rewrite list_to_set_cons, (assoc_L (∪)).
    + rewrite IHskip, decide_False by (by intros []). done.
Qed.

(** What [ColumnNameScanner.scan] computes, for every receiver. *)
Lemma scan_spec text (w : world ColumnNameScanner.t) :
  ColumnNameScanner.scan text w =
  (inr (elements (found_types (obj w) text)),
   World (obj w) (log w ++ [types_message (found_types (obj w) text)])).
Proof.
  unfold ColumnNameScanner.scan. rewrite bind_get_self.
  pose proof (scan_loop text w
    (dict_keys (ColumnNameScanner.self_regex (obj w))) ∅) as Hloop.
  assert (Hall : ∀ k, k ∈ dict_keys (ColumnNameScanner.self_regex (obj w)) →
    is_Some (dict_get (ColumnNameScanner.self_regex (obj w)) k))
    by (intros k; apply dict_get_keys).
  specialize (Hloop Hall).
  rewrite (left_id_L ∅ (∪)) in Hloop.
  destruct (ColumnNameScanner._exclude_regex (obj w));
    rewrite (bind_value _ _ _ _ _ Hloop); rewrite bind_debug; reflexivity.
Qed.

(** ** The matcher against the meaning of patterns *)

Lemma elem_of_flat_map {A B} (f : A → list B) (l : list A) (y : B) :
  y ∈ flat_map f l ↔ ∃ x, x ∈ l ∧ y ∈ f x.
Proof.
  rewrite list_elem_of_In, in_flat_map.
  split; intros (x & Hx & Hy); exists x;
    by rewrite ?list_elem_of_In in *.
Qed.

Lemma star_iter_elem step fuel st st' :
  st' ∈ re.star_iter step fuel st ↔
  st' = st ∨
  ∃ fuel' st1, fuel = S fuel' ∧ st1 ∈ step st ∧ (st.1 < st1.1)%nat
               ∧ st' ∈ re.star_iter step fuel' st1.
Proof.
  destruct fuel as [|fuel']; simpl.
  - rewrite list_elem_of_singleton. split; [by left|].
    intros [?|(? & ? & ? & _)]; done.
  - rewrite elem_of_app, elem_of_flat_map, list_elem_of_singleton. split.
    + intros [(st1 & Hst1 & Hin)| ->]; [|by left]. right.
      destruct (st.1 <? st1.1)%nat eqn:Hlt; [|by apply elem_of_nil in Hin].
      apply Nat.ltb_lt in Hlt. eauto 10.
    + intros [->|(fuel0 & st1 & [= <-] & Hst1 & Hlt & Hin)]; [by right|].
      left. exists st1. split; [done|].
      apply Nat.ltb_lt in Hlt. by rewrite Hlt.
Qed.

(** Every end position the matcher reports is licensed by [matches]. *)
Lemma run_sound fl r st st' :
  st' ∈ re.run fl r st →
  ∃ w, st.2 = w ++ st'.2 ∧ st'.1 = (st.1 + length w)%nat
       ∧ re.matches fl r st.1 w st'.2.
Proof.
  revert st st'. induction r as [ |c| | | |r1 IH1 r2 IH2|r1 IH1 r2 IH2|r IH|r IH];
    intros [pos s] st'; simpl.
  - intros ->%list_elem_of_singleton. exists []. simpl.
    split_and!; [done|lia|constructor].
  - destruct s as [|x s]; [by intros ?%elem_of_nil|].
    destruct (re.lit_match fl c x) eqn:Hm; [|by intros ?%elem_of_nil].
    intros ->%list_elem_of_singleton. exists [x]. simpl.
    split_and!; [done|lia|by constructor].
  - destruct s as [|x s]; [by intros ?%elem_of_nil|].
    destruct (N.eqb x re.newline) eqn:Hm; [by intros ?%elem_of_nil|].
    intros ->%list_elem_of_singleton. exists [x]. simpl.
    split_and!; [done|lia|]. constructor. by apply N.eqb_neq.
  - destruct (pos =? 0)%nat eqn:Hp; [|by intros ?%elem_of_nil].
    apply Nat.eqb_eq in Hp as ->.
    intros ->%list_elem_of_singleton. exists []. simpl.
    split_and!; [done|lia|constructor].
  - destruct (re.at_eol s) eqn:He; [|by intros ?%elem_of_nil].
    intros ->%list_elem_of_singleton. exists []. simpl.
    split_and!; [done|lia|by constructor].
  - intros (st1 & H1 & H2)%elem_of_flat_map.
    apply IH1 in H1 as (w1 & Hs1 & Hp1 & Hm1).
    apply IH2 in H2 as (w2 & Hs2 & Hp2 & Hm2). simpl in *.
    exists (w1 ++ w2). rewrite Hs1, Hs2, length_app, <- (assoc_L (++)).
    split_and!; [done|lia|].
    rewrite Hs2 in Hm1. rewrite Hp1 in Hm2. by constructor.
  - intros [H|H]%elem_of_app; [apply IH1 in H|apply IH2 in H];
      destruct H as (w & ? & ? & ?); exists w;
      split_and!; [done|done|by apply re.matches_alt_l
                  |done|done|by apply re.matches_alt_r].
  - intros H. remember (length s) as fuel eqn:Hfuel. clear Hfuel.
    revert pos s H. induction fuel as [|fuel IHf]; intros pos s;
      rewrite star_iter_elem.
    + intros [->|(? & ? & ? & _)]; [|done]. exists []. simpl.
      split_and!; [done|lia|constructor].
    + intros [->|(fuel0 & st1 & [= <-] & Hst1 & Hlt & Hin)].
      { exists []. simpl. split_and!; [done|lia|constructor]. }
      apply IH in Hst1 as (w1 & Hs1 & Hp1 & Hm1).
      destruct st1 as [pos1 s1]. simpl in *.
      apply IHf in Hin as (w2 & Hs2 & Hp2 & Hm2). simpl in *.
      exists (w1 ++ w2). rewrite Hs1, Hs2, length_app, <- (assoc_L (++)).
      split_and!; [done|lia|].
      rewrite Hs2 in Hm1. rewrite Hp1 in Hm2.
      constructor; [|done|done].
      intros ->. simpl in *. lia.
  - intros H. apply IH in H as (w & ? & ? & ?). exists w.
    split_and!; [done|done|by constructor].
Qed.

Lemma star_iter_mono step fuel fuel' st st' :
  (fuel ≤ fuel')%nat →
  st' ∈ re.star_iter step fuel st → st' ∈ re.star_iter step fuel' st.
Proof.
  revert fuel' st. induction fuel as [|fuel IH]; intros fuel' st Hle;
    rewrite !star_iter_elem.
  - intros [->|(? & ? & ? & _)]; [by left|done].
  - intros [->|(fuel0 & st1 & [= <-] & Hst1 & Hlt & Hin)]; [by left|].
    destruct fuel' as [|fuel']; [lia|].
    right. exists fuel', st1. split_and!; [done..|].
    apply IH; [lia|done].
Qed.

(** Conversely, the matcher reports every end position [matches] allows. *)
Lemma run_complete fl r pos w rest :
  re.matches fl r pos w rest →
  (pos + length w, rest)%nat ∈ re.run fl r (pos, w ++ rest).
Proof.
  induction 1 as
    [pos rest|c x pos rest Hm|x pos rest Hx|rest|pos rest He
    |r1 r2 pos w1 w2 rest _ IH1 _ IH2
    |r1 r2 pos w rest _ IH|r1 r2 pos w rest _ IH|r pos w rest _ IH
    |r pos rest|r pos w1 w2 rest Hne _ IH1 _ IH2];
    cbn [re.run fst snd length app].
  - rewrite Nat.add_0_r. apply list_elem_of_singleton. done.
  - rewrite Hm, Nat.add_1_r. by apply list_elem_of_singleton.
  - apply N.eqb_neq in Hx. rewrite Hx, Nat.add_1_r.
    by apply list_elem_of_singleton.
  - by apply list_elem_of_singleton.
  - rewrite He, Nat.add_0_r. by apply list_elem_of_singleton.
  - apply elem_of_flat_map. exists (pos + length w1, w2 ++ rest)%nat.
    rewrite <- (assoc_L (++)), length_app, Nat.add_assoc. done.
  - apply elem_of_app. by left.
  - apply elem_of_app. by right.
  - done.
  - rewrite Nat.add_0_r. apply star_iter_elem. by left.
  - cbn [re.run fst snd] in IH2. destruct w1 as [|x w1]; [done|].
    rewrite <- (assoc_L (++)). cbn [length app].
    apply star_iter_elem. right.
    exists (length (w1 ++ w2 ++ rest)),
      (pos + length (x :: w1), w2 ++ rest)%nat.
    split_and!; [done|done|simpl; lia|].
    replace (pos + S (length (w1 ++ w2)))%nat
      with (pos + length (x :: w1) + length w2)%nat
      by (rewrite length_app; simpl; lia).
    eapply star_iter_mono; [|exact IH2]. rewrite !length_app. lia.
Qed.

Lemma run_elem fl r st st' :
  st' ∈ re.run fl r st ↔
  ∃ w, st.2 = w ++ st'.2 ∧ st'.1 = (st.1 + length w)%nat
       ∧ re.matches fl r st.1 w st'.2.
Proof.
  split; [apply run_sound|].
  intros (w & Hs & Hp & Hm). destruct st as [pos s], st' as [pos' s'].
  simpl in *. subst. by apply run_complete.
Qed.

(** [pattern.match(text)] returns a match object exactly when the pattern
    matches a prefix of the text. *)
Lemma match_is_Some p text :
  is_Some (re.match_ p text) ↔ re.matches_prefix p text.
Proof.
  unfold re.match_, re.matches_prefix.
  destruct (re.run _ _ _) as [|st l] eqn:Hrun.
  - split; [by intros [? ?]|]. intros (w & rest & Hs & Hm).
    apply run_complete in Hm. rewrite <- Hs, Hrun in Hm.
    by apply elem_of_nil in Hm.
  - split; [intros _|by eauto].
    assert (Hin : st ∈ re.run (re.flags p) (re.ast p) (0%nat, text))
      by (rewrite Hrun; apply elem_of_cons; by left).
    apply run_sound in Hin as (w & Hs & _ & Hm). eauto.
Qed.

Lemma match_None p text :
  re.match_ p text = None ↔ ¬ re.matches_prefix p text.
Proof.
  rewrite <- match_is_Some, eq_None_not_Some. done.
Qed.

(** [pattern.fullmatch(text)] succeeds exactly when the whole text is
    matched. *)
Lemma fullmatch_is_Some p text :
  is_Some (re.fullmatch p text) ↔ re.matches_whole p text.
Proof.
  unfold re.fullmatch, re.matches_whole.
  destruct (filter _ _) as [|st l] eqn:Hf.
  - split; [by intros [? ?]|]. intros Hm.
    apply run_complete in Hm. rewrite (right_id_L [] (++)) in Hm.
    assert (Hin : (0 + length text, [])%nat
              ∈ filter (λ st : re.mstate, st.2 = [])
                  (re.run (re.flags p) (re.ast p) (0%nat, text)))
      by (by apply list_elem_of_filter).
    rewrite Hf in Hin. by apply elem_of_nil in Hin.
  - split; [intros _|by eauto].
    assert (Hin : st ∈ filter (λ st : re.mstate, st.2 = [])
                    (re.run (re.flags p) (re.ast p) (0%nat, text)))
      by (rewrite Hf; apply elem_of_cons; by left).
    apply list_elem_of_filter in Hin as [Hnil Hin].
    apply run_sound in Hin as (w & Hs & _ & Hm). simpl in *.
    rewrite Hnil in Hs, Hm. rewrite (right_id_L [] (++)) in Hs.
    by rewrite Hs.
Qed.

(** A match of the whole text is in particular a match of a prefix. *)
Lemma matches_whole_prefix p text :
  re.matches_whole p text → re.matches_prefix p text.
Proof.
  intros Hm. exists text, []. by rewrite (right_id_L [] (++)).
Qed.
(** ** Strings and substrings *)

Lemma startswith_spec sub s :
  startswith sub s = true ↔ ∃ post, s = sub ++ post.
Proof.
  revert s. induction sub as [|c sub IH]; intros s; simpl.
  - split; eauto.
  - destruct s as [|x s].
    + split; [done|]. by intros (post & ?).
    + rewrite andb_true_iff, N.eqb_eq, IH. split.
      * intros (-> & post & ->). eauto.
      * intros (post & [= -> ->]). eauto.
Qed.

Lemma contains_spec sub s :
  contains sub s = true ↔ ∃ pre post, s = pre ++ sub ++ post.
Proof.
  induction s as [|x s IH]; simpl; rewrite orb_true_iff, startswith_spec.
  - split.
    + intros [(post & H)|?]; [|done]. exists [], post. done.
    + intros (pre & post & H). left.
      destruct pre; [by exists post|done].
  - rewrite IH. split.
    + intros [(post & H)|(pre & post & ->)].
      * exists [], post. done.
      * by exists (x :: pre), post.
    + intros (pre & post & H). destruct pre as [|y pre].
      * left. by exists post.
      * right. injection H as -> ->. eauto.
Qed.

(** ** Rules of the shape [^.*(tok1|...|tokn).*$] *)

Lemma matches_star_dot fl pos w rest :
  re.matches fl (re.Star re.Dot) pos w rest ↔ re.newline ∉ w.
Proof.
  split.
  - intros H. remember (re.Star re.Dot) as r eqn:Hr.
    induction H as [| | | | | | | | | |r0 pos w1 w2 rest _ H1 _ _ IH2];
      try discriminate Hr.
    + apply not_elem_of_nil.
    + injection Hr as ->. inversion H1; subst.
      apply not_elem_of_cons. split; [done|]. by apply IH2.
  - revert pos. induction w as [|x w IH]; intros pos Hnl; [constructor|].
    apply not_elem_of_cons in Hnl as [Hx Hw].
    change (x :: w) with ([x] ++ w).
    constructor; [done|by constructor|by apply IH].
Qed.

Lemma matches_simple fl r pos x rest :
  simple r = true →
  (re.matches fl r pos x rest ↔
   ∃ w, w ∈ words r ∧ Forall2 (λ c a, re.lit_match fl c a = true) w x).
Proof.
  revert pos x rest.
  induction r as [ |c| | | |r1 IH1 r2 IH2|r1 IH1 r2 IH2|r IH|r IH];
    intros pos x rest; simpl; try discriminate.
  - intros _. split.
    + inversion 1; subst. exists []. split; [by apply list_elem_of_singleton|].
      constructor.
    + intros (w & ->%list_elem_of_singleton & ->%Forall2_nil_inv_l).
      constructor.
  - intros _. split.
    + inversion 1; subst. exists [c].
      split; [by apply list_elem_of_singleton|]. by repeat constructor.
    + intros (w & ->%list_elem_of_singleton & H).
      apply Forall2_cons_inv_l in H as (a & x' & Ha & ->%Forall2_nil_inv_l & ->).
      by constructor.
  - intros [H1 H2]%andb_true_iff. split.
    + inversion 1 as [| | | | |? ? ? w1 w2 ? Hm1 Hm2| | | | |]; subst.
      apply IH1 in Hm1 as (u1 & Hu1 & Hf1); [|done].
      apply IH2 in Hm2 as (u2 & Hu2 & Hf2); [|done].
      exists (u1 ++ u2). split; [|by apply Forall2_app].
      apply elem_of_flat_map. exists u1. split; [done|].
      apply list_elem_of_fmap. eauto.
    + intros (w & (u1 & Hu1 & (u2 & -> & Hu2)%list_elem_of_fmap)%elem_of_flat_map
                & Hf).
      apply Forall2_app_inv_l in Hf as (x1 & x2 & Hf1 & Hf2 & ->).
      constructor; [apply IH1|apply IH2]; eauto.
  - intros [H1 H2]%andb_true_iff. split.
    + inversion 1 as [ | | | | | |? ? ? ? ? Hm|? ? ? ? ? Hm| | | ]; subst.
      * apply IH1 in Hm as (w & ? & ?); [|done]. exists w.
        split; [|done]. apply elem_of_app. by left.
      * apply IH2 in Hm as (w & ? & ?); [|done]. exists w.
        split; [|done]. apply elem_of_app. by right.
    + intros (w & [Hw|Hw]%elem_of_app & Hf).
      * apply re.matches_alt_l, IH1; eauto.
      * apply re.matches_alt_r, IH2; eauto.
  - intros H1. split.
    + inversion 1 as [ | | | | | | | |? ? ? ? Hm| | ]; subst.
      by apply (IH pos x rest H1).
    + intros H. constructor. by apply (IH pos x rest H1).
Qed.

Lemma is_dotstar_eol_true t :
  is_dotstar_eol t = true → t = re.Seq (re.Star re.Dot) re.Eol.
Proof.
  destruct t as [ | | | | |a t'| | | ]; try discriminate.
  destruct a as [ | | | | | | |a| ]; try discriminate.
  destruct a; try discriminate. destruct t'; try discriminate. done.
Qed.

Lemma at_eol_spec rest :
  re.at_eol rest = true ↔ rest = [] ∨ rest = [re.newline].
Proof.
  destruct rest as [|c [|c' rest]]; simpl.
  - split; [by left|done].
  - rewrite N.eqb_eq. split; [intros ->; by right|].
    by intros [?|[= ->]].
  - split; [done|]. by intros [?|?].
Qed.

Lemma tail_body_unfold t :
  tail_body t =
  if is_dotstar_eol t then Some re.Eps
  else
    match t with
    | re.Seq a t' =>
        if simple a then
          match tail_body t' with
          | Some b => Some (re.Seq a b)
          | None => None
          end
        else None
    | _ => None
    end.
Proof. by destruct t. Qed.

Lemma matches_tail fl t body pos w rest :
  tail_body t = Some body →
  (re.matches fl t pos w rest ↔
   ∃ x post, w = x ++ post
     ∧ (∃ wd, wd ∈ words body
              ∧ Forall2 (λ c a, re.lit_match fl c a = true) wd x)
     ∧ (re.newline ∉ post) ∧ re.at_eol rest = true).
Proof.
  revert body pos w.
  induction t as [ | | | | |a _ t' IH| | | ]; intros body pos w;
    rewrite tail_body_unfold; try discriminate.
  destruct (is_dotstar_eol (re.Seq a t')) eqn:Hshape.
  - apply is_dotstar_eol_true in Hshape as [= -> ->]. intros [= <-]. split.
    + inversion 1 as [ | | | | |? ? ? w1 w2 ? Hm1 Hm2| | | | | ]; subst.
      inversion Hm2; subst. apply matches_star_dot in Hm1.
      exists [], w1. rewrite (right_id_L [] (++)). split_and!; [done| |done..].
      exists []. split; [by apply list_elem_of_singleton|constructor].
    + intros (x & post & -> & (wd & ->%list_elem_of_singleton
                                  & ->%Forall2_nil_inv_l) & Hnl & He).
      simpl. rewrite <- (right_id_L [] (++) post).
      constructor; [by apply matches_star_dot|by constructor].
  - destruct (simple a) eqn:Ha; [|done].
    destruct (tail_body t') as [b|] eqn:Hb; [|done]. intros [= <-]. split.
    + inversion 1 as [ | | | | |? ? ? w1 w2 ? Hm1 Hm2| | | | | ]; subst.
      apply matches_simple in Hm1 as (u1 & Hu1 & Hf1); [|done].
      apply (IH b) in Hm2 as (x & post & -> & (u2 & Hu2 & Hf2) & Hnl & He);
        [|done].
      exists (w1 ++ x), post. rewrite (assoc_L (++)).
      split_and!; [done| |done..].
      exists (u1 ++ u2). split; [|by apply Forall2_app].
      simpl. apply elem_of_flat_map. exists u1. split; [done|].
      apply list_elem_of_fmap. eauto.
    + intros (x & post & -> & (wd & Hwd & Hf) & Hnl & He). simpl in Hwd.
      apply elem_of_flat_map in Hwd
        as (u1 & Hu1 & (u2 & -> & Hu2)%list_elem_of_fmap).
      apply Forall2_app_inv_l in Hf as (x1 & x2 & Hf1 & Hf2 & ->).
      rewrite <- (assoc_L (++)). constructor.
      * apply matches_simple; eauto.
      * apply (IH b); [done|]. exists x2, post. eauto 10.
Qed.

(** Under [re.IGNORECASE] a stretch of text matches a word exactly when
    the two agree key by key. *)
Lemma Forall2_lit_match_ignorecase (w x : str) :
  Forall2 (λ c a, re.lit_match re.IGNORECASE c a = true) w x ↔
  re.fold <$> x = re.fold <$> w.
Proof.
  split.
  - induction 1 as [|c a w x Hca _ IH]; [done|].
    unfold re.lit_match in Hca. simpl in Hca. apply N.eqb_eq in Hca.
    by rewrite !fmap_cons, Hca, IH.
  - revert x. induction w as [|c w IH]; intros [|a x]; simpl; try done.
    intros [= Hca Hwx]. constructor; [|by apply IH].
    unfold re.lit_match. simpl. by apply N.eqb_eq.
Qed.

Lemma fold_newline : re.fold re.newline = re.newline.
Proof. reflexivity. Qed.

Lemma rule_body_shape r body :
  rule_body r = Some body →
  ∃ t, r = re.Seq re.Bol (re.Seq (re.Star re.Dot) t) ∧ tail_body t = Some body.
Proof.
  destruct r as [ | | | | |r1 r2| | | ]; try discriminate.
  destruct r1; try discriminate.
  destruct r2 as [ | | | | |r2 t| | | ]; try discriminate.
  destruct r2 as [ | | | | | | |r2| ]; try discriminate.
  destruct r2; try discriminate. simpl. eauto.
Qed.

Lemma not_elem_of_fmap_fold (x : str) :
  re.newline ∉ re.fold <$> x → re.newline ∉ x.
Proof.
  intros Hnot Hin. apply Hnot. rewrite <- fold_newline.
  by apply list_elem_of_fmap_2.
Qed.

(** A rule [^.* body .*$] with a simple body, matched without regard to
    case, asks for the subject to be one line, up to one final line feed,
    that contains one of the words of the body. *)
Lemma rule_matches_line (p : re.Pattern) body (s : str) :
  rule_body (re.ast p) = Some body →
  re.flags p = re.IGNORECASE →
  (∀ wd, wd ∈ words body → re.newline ∉ re.fold <$> wd) →
  ((∃ w rest, s = w ++ rest ∧ re.matches (re.flags p) (re.ast p) 0 w rest) ↔
   ∃ line, (s = line ∨ s = line ++ [re.newline])
     ∧ (re.newline ∉ line)
     ∧ ∃ wd, wd ∈ words body
             ∧ contains (re.fold <$> wd) (re.fold <$> line) = true).
Proof.
  intros (t & Hr & Ht)%rule_body_shape Hfl Hwords. rewrite Hr, Hfl. split.
  - intros (w & rest & -> & Hm).
    inversion Hm as [ | | | | |? ? ? w1 w2 ? Hm1 Hm2| | | | | ]; subst.
    inversion Hm1; subst. simpl in *.
    inversion Hm2 as [ | | | | |? ? ? pre w3 ? Hpre Hm3| | | | | ]; subst.
    apply matches_star_dot in Hpre.
    apply (matches_tail _ _ body) in Hm3
      as (x & post & -> & (wd & Hwd & Hf) & Hpost & He); [|done].
    apply Forall2_lit_match_ignorecase in Hf.
    exists (pre ++ x ++ post). split_and!.
    + apply at_eol_spec in He as [-> | ->];
        [left; by rewrite (right_id_L [] (++))|by right].
    + rewrite !not_elem_of_app. split_and!; [done| |done].
      apply not_elem_of_fmap_fold. rewrite Hf. by apply Hwords.
    + exists wd. split; [done|]. apply contains_spec.
      exists (re.fold <$> pre), (re.fold <$> post).
      by rewrite !fmap_app, Hf.
  - intros (line & Hs & Hline & wd & Hwd & Hc).
    apply contains_spec in Hc as (a & b & Hc).
    apply fmap_app_inv in Hc as (pre & l' & -> & Hc & ->).
    symmetry in Hc.
    apply fmap_app_inv in Hc as (x & post & Hx & -> & ->).
    symmetry in Hx.
    rewrite !not_elem_of_app in Hline. destruct Hline as (Hpre & _ & Hpost).
    assert (Hm : ∀ rest, re.at_eol rest = true →
      re.matches re.IGNORECASE
        (re.Seq re.Bol (re.Seq (re.Star re.Dot) t)) 0
        (pre ++ x ++ post) rest).
    { intros rest He.
      apply (re.matches_seq _ re.Bol _ 0 [] (pre ++ x ++ post) rest);
        [constructor|].
      constructor; [by apply matches_star_dot|].
      apply (matches_tail _ _ body); [done|]. exists x, post.
      split_and!; [done| |done..].
      exists wd. split; [done|]. by apply Forall2_lit_match_ignorecase. }
    destruct Hs as [-> | ->].
    + exists (pre ++ x ++ post), []. rewrite (right_id_L [] (++)).
      split; [done|]. by apply Hm.
    + exists (pre ++ x ++ post), [re.newline]. split; [done|].
      by apply Hm.
Qed.


(** ** The rule table *)

Lemma regex_compiled :
  ColumnNameScanner.compile_all ColumnNameScanner.regex_source
  = inr ColumnNameScanner.regex.
Proof. vm_compute. reflexivity. Qed.

Lemma regex_rule_shape ty rule :
  dict_get ColumnNameScanner.regex ty = Some rule →
  ∃ body, rule_body (re.ast rule) = Some body
          ∧ re.flags rule = re.IGNORECASE
          ∧ words body = tokens ty.
Proof.
  intros H. destruct ty; vm_compute in H; try discriminate H;
    injection H as <-; eexists; split_and!; vm_compute; reflexivity.
Qed.

Lemma tokens_single_line ty wd :
  wd ∈ tokens ty → re.newline ∉ re.fold <$> wd.
Proof.
  revert wd. apply Forall_forall.
  destruct ty; repeat (apply Forall_cons; split; [by compute_done|]);
    apply Forall_nil_2.
Qed.

(** C9 (as amended): a category's rule matches an input exactly when the
    input, after at most one final line feed is taken off, is a single line
    that contains one of the category's tokens, case disregarded the way
    the engine does under [IGNORECASE] (a letter equals its capital, and
    besides [s] equals U+017F, [k] equals U+212A, [i] equals U+0130 and
    U+0131); in particular, on every input without a line feed the
    anchored rule and this substring test agree. *)
Theorem rule_matches_iff_line_contains_token ty rule (text : str) :
  dict_get ColumnNameScanner.regex ty = Some rule →
  (is_Some (re.match_ rule text) ↔
   ∃ line, (text = line ∨ text = line ++ LF) ∧ single_line line
     ∧ ∃ tok, tok ∈ tokens ty ∧ ci_contains tok line = true)
  ∧ (single_line text →
     (is_Some (re.match_ rule text) ↔
      ∃ tok, tok ∈ tokens ty ∧ ci_contains tok text = true)).
Proof.
  intros (body & Hbody & Hfl & Hwords)%regex_rule_shape.
  assert (Hfull : is_Some (re.match_ rule text) ↔
    ∃ line, (text = line ∨ text = line ++ LF) ∧ single_line line
      ∧ ∃ tok, tok ∈ tokens ty ∧ ci_contains tok line = true).
  { rewrite match_is_Some. unfold re.matches_prefix.
    rewrite (rule_matches_line rule body text Hbody Hfl)
      by (intros wd Hwd; apply (tokens_single_line ty); by rewrite <- Hwords).
    by rewrite Hwords. }
  split; [done|]. intros Hsingle. rewrite Hfull. split.
  - intros (line & [-> | ->] & _ & Htok); [done|].
    exfalso. apply Hsingle. apply elem_of_app. right.
    by apply list_elem_of_singleton.
  - intros Htok. exists text. split_and!; [by left|done|done].
Qed.

Lemma rule_matches_iff_line_contains_token_witness :
  ∃ rule, dict_get ColumnNameScanner.regex PHONE = Some rule
    ∧ single_line (py "Mobile_No")
    ∧ (is_Some (re.match_ rule (py "Mobile_No")) ↔
       ∃ tok, tok ∈ tokens PHONE ∧ ci_contains tok (py "Mobile_No") = true).
Proof.
  eexists. split; [vm_compute; reflexivity|].
  split; [unfold single_line; compute_done|].
  apply (rule_matches_iff_line_contains_token PHONE _ (py "Mobile_No")).
  - vm_compute. reflexivity.
  - unfold single_line. compute_done.
Defined.

(** C9 (as stated) fails: ["\nname"] contains the token [name], yet the
    PERSON rule does not match it, because [.] stops at a line feed. *)
Lemma rules_are_substring_tests_counterexample : ¬ rules_are_substring_tests.
Proof.
  intros Hclaim.
  destruct (dict_get ColumnNameScanner.regex PERSON) as [rule|] eqn:Hrule;
    [|by vm_compute in Hrule].
  pose proof (Hclaim PERSON rule (LF ++ py "name") Hrule) as [_ Hmatch].
  assert (Hnone : re.match_ rule (LF ++ py "name") = None).
  { vm_compute in Hrule. injection Hrule as <-. vm_compute. reflexivity. }
  rewrite Hnone in Hmatch. apply (is_Some_None (A:=re.Match)), Hmatch.
  exists (py "name"). split; [|by vm_compute].
  unfold tokens. rewrite !fmap_cons.
  do 9 apply list_elem_of_further. apply list_elem_of_here.
Qed.
(** ** ColumnNameScanner *)

Lemma elem_of_found_types self text ty :
  ty ∈ found_types self text ↔ rule_fires self text ty = true.
Proof.
  unfold found_types. rewrite elem_of_list_to_set, list_elem_of_filter.
  rewrite Is_true_true. split; [by intros [? _]|]. intros Hf. split; [done|].
  unfold rule_fires in Hf.
  destruct (dict_get _ ty) as [rule|] eqn:Hrule; [|done].
  by eapply dict_get_Some_keys.
Qed.

Lemma is_not_None_true {A} (o : option A) :
  is_not_None o = true ↔ is_Some o.
Proof. destruct o; simpl; split; (done || eauto || by intros [? ?]). Qed.

Lemma is_None_true {A} (o : option A) : is_None o = true ↔ o = None.
Proof. by destruct o. Qed.

(** The constructor: what [ColumnNameScanner(exclude_regex)] leaves behind. *)
Lemma new_nil lg :
  ColumnNameScanner.new [] lg =
  (inr tt, World (ColumnNameScanner.New None ColumnNameScanner.regex) lg).
Proof. reflexivity. Qed.

Lemma new_cons pat rest lg :
  ColumnNameScanner.new (pat :: rest) lg =
  match re.compile pat re.IGNORECASE with
  | inr exclude =>
      (inr tt,
       World (ColumnNameScanner.New (Some exclude) ColumnNameScanner.regex) lg)
  | inl e =>
      (inl e, World (ColumnNameScanner.New None ColumnNameScanner.regex) lg)
  end.
Proof.
  unfold ColumnNameScanner.new, ColumnNameScanner.__init__. cbn.
  unfold lift, bind. by destruct (re.compile pat re.IGNORECASE).
Qed.

Lemma compile_flags pat fl p : re.compile pat fl = inr p → re.flags p = fl.
Proof.
  unfold re.compile. destruct (re.parse _ _ _); [done|]. by intros [= <-].
Qed.

(** C1: without an exclusion filter a tag is returned exactly when its
    case-insensitive rule matches the input; with an exclusion filter,
    exactly when its rule matches and the exclusion pattern does not; the
    exclusion test is the same for every category, so a matching exclusion
    empties the result. *)
Theorem scan_inclusion_rule (exclude : option re.Pattern) text lg :
  ∃ types,
    (ColumnNameScanner.scan text
       (World (ColumnNameScanner.New exclude ColumnNameScanner.regex) lg)).1
    = inr types
    ∧ (∀ ty, ty ∈ types ↔
         ∃ rule, dict_get ColumnNameScanner.regex ty = Some rule
                 ∧ re.flags rule = re.IGNORECASE
                 ∧ is_Some (re.match_ rule text)
                 ∧ match exclude with
                   | None => True
                   | Some ex => re.match_ ex text = None
                   end)
    ∧ (∀ ex, exclude = Some ex → is_Some (re.match_ ex text) → types = []).
Proof.
  rewrite scan_spec. eexists. split; [reflexivity|]. cbn [obj].
  assert (Hmem : ∀ ty,
    ty ∈ elements
           (found_types
              (ColumnNameScanner.New exclude ColumnNameScanner.regex) text) ↔
    ∃ rule, dict_get ColumnNameScanner.regex ty = Some rule
            ∧ re.flags rule = re.IGNORECASE
            ∧ is_Some (re.match_ rule text)
            ∧ match exclude with
              | None => True
              | Some ex => re.match_ ex text = None
              end).
  { intros ty. rewrite elem_of_elements, elem_of_found_types.
    unfold rule_fires.
    cbn [ColumnNameScanner.self_regex ColumnNameScanner._exclude_regex].
    destruct (dict_get ColumnNameScanner.regex ty) as [rule|] eqn:Hrule.
    - rewrite andb_true_iff, is_not_None_true. split.
      + intros [Hm Hex]. exists rule. split_and!; [done| |done|].
        * by apply regex_rule_shape in Hrule as (? & _ & ? & _).
        * destruct exclude; [by apply is_None_true|done].
      + intros (rule' & [= <-] & _ & Hm & Hex). split; [done|].
        destruct exclude; [by apply is_None_true|done].
    - split; [done|]. by intros (? & ? & _). }
  split; [done|]. intros ex -> [n Hn].
  apply elem_of_nil_inv. intros ty (rule & _ & _ & _ & Hnone)%Hmem.
  congruence.
Qed.

(** C8: on ["fname"], with no exclusion filter, the result is exactly
    [PERSON]: the PERSON rule matches and no other rule does. *)
Theorem scan_fname lg :
  (ColumnNameScanner.scan (py "fname") (ColumnNameScanner.new [] lg).2).1
  = inr [PERSON]
  ∧ ∀ ty rule,
      dict_get ColumnNameScanner.regex ty = Some rule →
      (is_Some (re.match_ rule (py "fname")) ↔ ty = PERSON).
Proof.
  split.
  - rewrite scan_spec, new_nil. cbn [fst snd obj].
    vm_compute. reflexivity.
  - intros ty rule Hrule. rewrite <- is_not_None_true.
    destruct ty; vm_compute in Hrule; try discriminate Hrule;
      injection Hrule as <-; vm_compute; split; done.
Qed.

(** C10: the constructor takes a sequence; an empty one configures no
    exclusion filter, and of a longer one only the first element is compiled
    and used: whatever follows it is ignored, so that [(p1, p2, ...)] and
    [(p1,)] construct the same scanner, with the same outcome of every
    scan. *)
Theorem init_uses_first_exclude_only pat rest lg :
  ColumnNameScanner.new (pat :: rest) lg = ColumnNameScanner.new [pat] lg
  ∧ (∀ text,
       ColumnNameScanner.scan text (ColumnNameScanner.new (pat :: rest) lg).2
       = ColumnNameScanner.scan text (ColumnNameScanner.new [pat] lg).2)
  ∧ ColumnNameScanner._exclude_regex (obj (ColumnNameScanner.new [] lg).2)
    = None
  ∧ match re.compile pat re.IGNORECASE with
    | inr exclude =>
        (ColumnNameScanner.new (pat :: rest) lg).1 = inr tt
        ∧ ColumnNameScanner._exclude_regex
            (obj (ColumnNameScanner.new (pat :: rest) lg).2) = Some exclude
    | inl e => (ColumnNameScanner.new (pat :: rest) lg).1 = inl e
    end.
Proof.
  rewrite !new_cons, new_nil. split_and!; [done..|].
  by destruct (re.compile pat re.IGNORECASE).
Qed.


(** ** NERScanner *)

Lemma ner_body_types (label : str) (types : gset PiiTypes) :
  (let types :=
     if bool_decide (label = py "PERSON") then types ∪ {[PERSON]}
     else types in
   let types :=
     if bool_decide (label = py "GPE") then types ∪ {[LOCATION]}
     else types in
   let types :=
     if bool_decide (label = py "DATE") then types ∪ {[BIRTH_DATE]}
     else types in
   types)
  = types ∪ list_to_set (option_list (label_to_pii label)).
Proof.
  unfold label_to_pii. cbv zeta.
  destruct (decide (label = py "PERSON")) as [-> | HP].
  { rewrite (bool_decide_eq_true_2 _ eq_refl).
    rewrite !bool_decide_eq_false_2 by (by vm_compute).
    simpl. by rewrite (right_id_L ∅ (∪)). }
  rewrite (bool_decide_eq_false_2 _ HP).
  destruct (decide (label = py "GPE")) as [-> | HG].
  { rewrite (bool_decide_eq_true_2 _ eq_refl).
    rewrite !bool_decide_eq_false_2 by (by vm_compute).
    simpl. by rewrite (right_id_L ∅ (∪)). }
  rewrite (bool_decide_eq_false_2 _ HG).
  destruct (decide (label = py "DATE")) as [-> | HD].
  { rewrite (bool_decide_eq_true_2 _ eq_refl).
    simpl. by rewrite (right_id_L ∅ (∪)). }
  rewrite (bool_decide_eq_false_2 _ HD).
  simpl. by rewrite (right_id_L ∅ (∪)).
Qed.

Lemma ner_body ent (types : gset PiiTypes) (w : world NERScanner.t) :
  (run! logging_debug (py "Found " ++ label_ ent) in
   let types :=
     if bool_decide (label_ ent = py "PERSON") then types ∪ {[PERSON]}
     else types in
   let types :=
     if bool_decide (label_ ent = py "GPE") then types ∪ {[LOCATION]}
     else types in
   let types :=
     if bool_decide (label_ ent = py "DATE") then types ∪ {[BIRTH_DATE]}
     else types in
   ret types)%py w
  = (inr (types ∪ list_to_set (option_list (label_to_pii (label_ ent)))),
     World (obj w) (log w ++ [py "Found " ++ label_ ent])).
Proof.
  rewrite bind_debug. unfold ret. f_equal. f_equal. apply ner_body_types.
Qed.

Lemma ner_loop (es : list Span) (acc : gset PiiTypes) (w : world NERScanner.t) :
  for_each es
    (λ ent (types : gset PiiTypes),
       run! logging_debug (py "Found " ++ label_ ent) in
       let types :=
         if bool_decide (label_ ent = py "PERSON") then types ∪ {[PERSON]}
         else types in
       let types :=
         if bool_decide (label_ ent = py "GPE") then types ∪ {[LOCATION]}
         else types in
       let types :=
         if bool_decide (label_ ent = py "DATE") then types ∪ {[BIRTH_DATE]}
         else types in
       ret types)%py acc w
  = (inr (acc ∪ list_to_set (omap (λ ent, label_to_pii (label_ ent)) es)),
     World (obj w) (log w ++ ((λ ent, py "Found " ++ label_ ent) <$> es))).
Proof.
  revert acc w. induction es as [|ent es IH]; intros acc w.
  - simpl. unfold ret. destruct w as [o lg]. simpl.
    by rewrite (right_id_L ∅ (∪)), (right_id_L [] (++)).
  - cbn [for_each]. erewrite bind_value; [|apply ner_body].
    rewrite IH. cbn [obj log].
    rewrite fmap_cons, <- (assoc_L (++)). cbn [omap list_omap].
    f_equal. f_equal.
    destruct (label_to_pii (label_ ent)) as [ty|];
      [change (option_list (Some ty)) with [ty]
      |change (option_list (@None PiiTypes)) with (@nil PiiTypes)];
      by rewrite ?list_to_set_cons, ?list_to_set_nil, ?(right_id_L ∅ (∪)),
           ?(left_id_L ∅ (∪)), <- ?(assoc_L (∪)).
Qed.

(** What [NERScanner.scan] computes, for every receiver: the first debug
    message is written before the pipeline is called; if the call raises,
    so does [scan]. *)
Lemma ner_scan_spec text (w : world NERScanner.t) :
  NERScanner.scan text w =
  match NERScanner.nlp (obj w) text with
  | inr doc =>
      (inr (elements (entity_types doc)),
       World (obj w)
         (log w ++ [py "Processing '" ++ text ++ py "'"]
          ++ ((λ ent, py "Found " ++ label_ ent) <$> ents doc)
          ++ [types_message (entity_types doc)]))
  | inl e =>
      (inl e, World (obj w) (log w ++ [py "Processing '" ++ text ++ py "'"]))
  end.
Proof.
  unfold NERScanner.scan. rewrite bind_debug, bind_get_self. cbn [obj log].
  destruct (NERScanner.nlp (obj w) text) as [e|doc]; [done|].
  unfold lift at 1. unfold bind at 1.
  erewrite bind_value; [|apply ner_loop].
  rewrite bind_debug. cbn [obj log]. unfold ret, entity_types, types_message.
  by rewrite (left_id_L ∅ (∪)), <- !(assoc_L (++)).
Qed.

(** C3: the result of [NERScanner.scan] is exactly the set of tags obtained
    by sending each recognised entity's label through PERSON -> PERSON,
    GPE -> LOCATION, DATE -> BIRTH_DATE (every date, whatever it dates) and
    dropping all other labels; a label that occurs several times yields its
    tag once, and no entity yields the empty result. *)
Theorem ner_scan_label_mapping (pipeline : str → Doc) text lg :
  ∃ types,
    (NERScanner.scan text
       (World (NERScanner.New (λ text, inr (pipeline text))) lg)).1
    = inr types
    ∧ types
      = elements
          (list_to_set
             (omap (λ ent, label_to_pii (label_ ent)) (ents (pipeline text)))
           : gset PiiTypes)
    ∧ NoDup types
    ∧ (∀ ty, ty ∈ types ↔
         ∃ ent, ent ∈ ents (pipeline text)
                ∧ ((label_ ent = py "PERSON" ∧ ty = PERSON)
                   ∨ (label_ ent = py "GPE" ∧ ty = LOCATION)
                   ∨ (label_ ent = py "DATE" ∧ ty = BIRTH_DATE)))
    ∧ (ents (pipeline text) = [] → types = []).
Proof.
  rewrite ner_scan_spec. cbn [fst obj NERScanner.nlp]. eexists.
  split; [reflexivity|]. split; [reflexivity|].
  split; [apply NoDup_elements|]. split.
  - intros ty. unfold entity_types.
    rewrite elem_of_elements, elem_of_list_to_set, list_elem_of_omap.
    split; intros (ent & Hent & Hl); exists ent; (split; [done|]).
    + unfold label_to_pii in Hl.
      repeat case_bool_decide; simplify_eq; auto.
    + destruct Hl as [[-> ->]|[[-> ->]|[-> ->]]]; by vm_compute.
  - intros Hnil. unfold entity_types. rewrite Hnil. cbn [omap list_omap].
    by rewrite list_to_set_nil, elements_empty.
Qed.

(** ** RegexScanner *)

Lemma truthy_true {A} (l : list A) : truthy l = true ↔ l ≠ [].
Proof. by destruct l. Qed.

Lemma elem_of_if_singleton {A} (b : bool) (x y : A) :
  y ∈ (if b then [x] else []) ↔ y = x ∧ b = true.
Proof.
  destruct b.
  - rewrite list_elem_of_singleton. split; [done|by intros [? _]].
  - split; [by intros ?%elem_of_nil|by intros [_ ?]].
Qed.

(** The list [RegexScanner.scan] builds by its four conditional appends;
    an exception of the constructor goes through. *)
Lemma regex_scan_types (CommonRegex : str → exn + CommonRegexObj) text
  (w : world RegexScanner.t) :
  RegexScanner.scan CommonRegex text w =
  (match CommonRegex text with
   | inr regex_result =>
       inr ((if attr_truthy (phones regex_result) then [PHONE] else [])
            ++ (if attr_truthy (emails regex_result) then [EMAIL] else [])
            ++ (if attr_truthy (credit_cards regex_result) then [CREDIT_CARD]
                else [])
            ++ (if attr_truthy (street_addresses regex_result) then [ADDRESS]
                else []))
   | inl e => inl e
   end, w).
Proof.
  unfold RegexScanner.scan, lift, bind, ret.
  destruct (CommonRegex text) as [e|o]; [done|]. cbv zeta.
  by destruct (attr_truthy (phones o)), (attr_truthy (emails o)),
    (attr_truthy (credit_cards o)), (attr_truthy (street_addresses o)).
Qed.

(** The library's constructor on a text that is not empty. *)
Lemma CommonRegex_nonempty findall text :
  text ≠ [] →
  commonregex.CommonRegex findall text =
  match findall text with
  | inr f =>
      inr {| phones := Matches (found_phones f);
             emails := Matches (found_emails f);
             credit_cards := Matches (found_credit_cards f);
             street_addresses := Matches (found_street_addresses f) |}
  | inl e => inl e
  end.
Proof. by destruct text. Qed.

(** C2 (where the code departs from it): on the empty text the attributes
    of [CommonRegex("")] are still the matcher methods, which are true, so
    [RegexScanner.scan] returns all four tags, whatever the matchers would
    find, although nothing has been matched. *)
Theorem regex_scan_empty_text (findall : str → exn + Found)
  (w : world RegexScanner.t) :
  RegexScanner.scan (commonregex.CommonRegex findall) [] w
  = (inr [PHONE; EMAIL; CREDIT_CARD; ADDRESS], w).
Proof. by rewrite regex_scan_types. Qed.

(** ** Totality, purity, order *)

Lemma found_types_no_rule self text :
  (∀ ty rule,
     dict_get (ColumnNameScanner.self_regex self) ty = Some rule →
     re.match_ rule text = None) →
  found_types self text = ∅.
Proof.
  intros Hnone. apply set_eq. intros ty.
  rewrite elem_of_found_types, elem_of_empty. unfold rule_fires.
  destruct (dict_get _ ty) as [rule|] eqn:Hrule; [|done].
  by rewrite (Hnone ty rule Hrule).
Qed.



Lemma run_calls_pure {Self} (sc : Scanner Self) :
  (∀ text w, obj (sc text w).2 = obj w) →
  (∀ text w w', obj w = obj w' → (sc text w).1 = (sc text w').1) →
  ∀ texts w text,
    obj (run_calls sc texts w) = obj w
    ∧ (sc text (run_calls sc texts w)).1 = (sc text w).1.
Proof.
  intros Hobj Hres texts.
  assert (Hkeep : ∀ w, obj (run_calls sc texts w) = obj w).
  { induction texts as [|t texts IH]; intros w; [done|].
    simpl. by rewrite IH, Hobj. }
  intros w text. split; [done|]. by apply Hres.
Qed.

(** C7: a [scan] call reads the receiver's attributes and the text, and
    nothing else: it leaves the attributes as they were, and after any
    sequence of other [scan] calls on the same receiver it returns what it
    would have returned before them. *)
Theorem scan_deterministic :
  (∀ (CommonRegex : str → exn + CommonRegexObj) texts
     (w : world RegexScanner.t) text,
     obj (run_calls (RegexScanner_Scanner CommonRegex) texts w) = obj w
     ∧ (RegexScanner.scan CommonRegex text
          (run_calls (RegexScanner_Scanner CommonRegex) texts w)).1
       = (RegexScanner.scan CommonRegex text w).1)
  ∧ (∀ texts (w : world NERScanner.t) text,
       obj (run_calls NERScanner_Scanner texts w) = obj w
       ∧ (NERScanner.scan text (run_calls NERScanner_Scanner texts w)).1
         = (NERScanner.scan text w).1)
  ∧ (∀ texts (w : world ColumnNameScanner.t) text,
       obj (run_calls ColumnNameScanner_Scanner texts w) = obj w
       ∧ (ColumnNameScanner.scan text
            (run_calls ColumnNameScanner_Scanner texts w)).1
         = (ColumnNameScanner.scan text w).1).
Proof.
  split_and!.
  - intros CommonRegex.
    apply (run_calls_pure (RegexScanner_Scanner CommonRegex)).
    + intros text w. unfold RegexScanner_Scanner.
      by rewrite regex_scan_types.
    + intros text w w' _. unfold RegexScanner_Scanner.
      by rewrite !regex_scan_types.
  - apply (run_calls_pure NERScanner_Scanner).
    + intros text w. unfold NERScanner_Scanner. rewrite ner_scan_spec.
      by destruct (NERScanner.nlp (obj w) text).
    + intros text w w' Hw. unfold NERScanner_Scanner.
      rewrite !ner_scan_spec, Hw.
      by destruct (NERScanner.nlp (obj w') text).
  - apply (run_calls_pure ColumnNameScanner_Scanner).
    + intros text w. unfold ColumnNameScanner_Scanner. by rewrite scan_spec.
    + intros text w w' Hw. unfold ColumnNameScanner_Scanner.
      by rewrite !scan_spec, Hw.
Qed.
Lemma dict_get_Some_NoDup {K V} `{EqDecision K} (d : dict K V) k v :
  NoDup (dict_keys d) → (dict_get d k = Some v ↔ (k, v) ∈ d).
Proof.
  unfold dict_keys. induction d as [|[k' v'] d IH]; simpl.
  - intros _. split; [done|by intros ?%elem_of_nil].
  - intros [Hk' Hd]%NoDup_cons. rewrite elem_of_cons.
    destruct (decide (k' = k)) as [->|Hne].
    + split; [intros [= ->]; by left|]. intros [[= ->]|Hin]; [done|].
      exfalso. apply Hk'. apply list_elem_of_fmap. by exists (k, v).
    + rewrite (IH Hd). split; [by right|]. by intros [[= ? ?]|?].
Qed.

Lemma dict_get_perm {K V} `{EqDecision K} (d d' : dict K V) k :
  NoDup (dict_keys d) → d ≡ₚ d' → dict_get d k = dict_get d' k.
Proof.
  intros Hnd Hperm.
  assert (Hnd' : NoDup (dict_keys d'))
    by (unfold dict_keys in *; by rewrite <- Hperm).
  apply option_eq. intros v.
  rewrite !dict_get_Some_NoDup by done. by rewrite Hperm.
Qed.

Lemma regex_keys_NoDup : NoDup (dict_keys ColumnNameScanner.regex).
Proof. by apply (bool_decide_unpack _). Qed.

Lemma found_types_perm exclude tbl text :
  tbl ≡ₚ ColumnNameScanner.regex →
  found_types (ColumnNameScanner.New exclude tbl) text
  = found_types (ColumnNameScanner.New exclude ColumnNameScanner.regex) text.
Proof.
  intros Hperm. apply set_eq. intros ty.
  rewrite !elem_of_found_types. unfold rule_fires.
  cbn [ColumnNameScanner.self_regex ColumnNameScanner._exclude_regex].
  rewrite (dict_get_perm ColumnNameScanner.regex tbl ty regex_keys_NoDup)
    by done.
  done.
Qed.

(** C6: scanning the same string a second time yields the same tags, and
    the tags do not depend on the order in which the rule table lists its
    (tag, pattern) pairs. *)
Theorem scan_idempotent_order_independent exclude tbl text lg :
  tbl ≡ₚ ColumnNameScanner.regex →
  (ColumnNameScanner.scan text (World (ColumnNameScanner.New exclude tbl) lg)).1
  = (ColumnNameScanner.scan text
       (World (ColumnNameScanner.New exclude ColumnNameScanner.regex) lg)).1
  ∧ (ColumnNameScanner.scan text
       (ColumnNameScanner.scan text
          (World (ColumnNameScanner.New exclude tbl) lg)).2).1
    = (ColumnNameScanner.scan text
         (World (ColumnNameScanner.New exclude tbl) lg)).1.
Proof.
  intros Hperm. rewrite !scan_spec. cbn [fst snd obj].
  by rewrite (found_types_perm exclude tbl text Hperm).
Qed.

Lemma scan_idempotent_order_independent_witness :
  reverse ColumnNameScanner.regex ≡ₚ ColumnNameScanner.regex
  ∧ (ColumnNameScanner.scan (py "user_email")
       (World (ColumnNameScanner.New None (reverse ColumnNameScanner.regex))
          [])).1
    = (ColumnNameScanner.scan (py "user_email")
         (World (ColumnNameScanner.New None ColumnNameScanner.regex) [])).1.
Proof.
  split; [apply reverse_Permutation|].
  apply (scan_idempotent_order_independent None
           (reverse ColumnNameScanner.regex) (py "user_email") []).
  apply reverse_Permutation.
Defined.

(** ** The exclusion filter *)

Lemma found_types_exclude_match exclude tbl text :
  is_Some (re.match_ exclude text) →
  found_types (ColumnNameScanner.New (Some exclude) tbl) text = ∅.
Proof.
  intros [n Hn]. apply set_eq. intros ty.
  rewrite elem_of_found_types, elem_of_empty. unfold rule_fires.
  cbn [ColumnNameScanner.self_regex ColumnNameScanner._exclude_regex].
  rewrite Hn. destruct (dict_get tbl ty); [|done].
  by rewrite andb_false_r.
Qed.

Lemma found_types_exclude_no_match exclude tbl text :
  re.match_ exclude text = None →
  found_types (ColumnNameScanner.New (Some exclude) tbl) text
  = found_types (ColumnNameScanner.New None tbl) text.
Proof.
  intros Hn. apply set_eq. intros ty.
  rewrite !elem_of_found_types. unfold rule_fires.
  cbn [ColumnNameScanner.self_regex ColumnNameScanner._exclude_regex].
  by rewrite Hn.
Qed.

(** C5 (as stated) fails: the exclusion pattern [user] does not match the
    whole of ["user_email"], yet it takes EMAIL, which the scanner reports
    without the filter, out of the result. *)
Lemma exclusion_is_whole_string_anchored_counterexample :
  ¬ exclusion_is_whole_string_anchored.
Proof.
  intros Hclaim.
  destruct (re.compile (py "user") re.IGNORECASE) as [e|exclude] eqn:Hcompile;
    [by vm_compute in Hcompile|].
  assert (Hwhole : re.matches_whole exclude (py "user_email")).
  { apply (Hclaim exclude (py "user_email") [] EMAIL).
    - exists [USER_NAME; EMAIL]. split.
      + rewrite scan_spec. cbn [fst obj]. vm_compute. reflexivity.
      + by apply (bool_decide_unpack _).
    - exists []. split.
      + vm_compute in Hcompile. injection Hcompile as <-.
        rewrite scan_spec. cbn [fst obj]. vm_compute. reflexivity.
      + apply not_elem_of_nil. }
  apply fullmatch_is_Some in Hwhole.
  vm_compute in Hcompile. injection Hcompile as <-.
  vm_compute in Hwhole. by destruct Hwhole.
Qed.

(** C5 (as amended): the exclusion pattern is compiled case-insensitively
    and applied with [match], that is anchored at the start of the input
    only: the filter empties the result exactly when the pattern matches
    some prefix of the input, and leaves it untouched otherwise; a match of
    the whole input is one such case, not the only one. *)
Theorem exclusion_is_start_anchored (exclude : re.Pattern) text lg :
  ∃ without_filter with_filter,
    (ColumnNameScanner.scan text
       (World (ColumnNameScanner.New None ColumnNameScanner.regex) lg)).1
    = inr without_filter
    ∧ (ColumnNameScanner.scan text
         (World (ColumnNameScanner.New (Some exclude) ColumnNameScanner.regex)
            lg)).1
      = inr with_filter
    ∧ (re.matches_prefix exclude text → with_filter = [])
    ∧ (¬ re.matches_prefix exclude text → with_filter = without_filter)
    ∧ (re.matches_whole exclude text → re.matches_prefix exclude text)
    ∧ (∀ pat rest lg',
         re.compile pat re.IGNORECASE = inr exclude →
         ColumnNameScanner.new (pat :: rest) lg'
         = (inr tt,
            World (ColumnNameScanner.New (Some exclude)
                     ColumnNameScanner.regex) lg')
         ∧ re.flags exclude = re.IGNORECASE).
Proof.
  rewrite !scan_spec. cbn [fst obj]. eexists _, _.
  split_and!; [reflexivity|reflexivity| | | |].
  - intros Hm%match_is_Some.
    by rewrite (found_types_exclude_match exclude _ text Hm), elements_empty.
  - intros Hm%match_None.
    by rewrite (found_types_exclude_no_match exclude _ text Hm).
  - apply matches_whole_prefix.
  - intros pat rest lg' Hc. rewrite new_cons, Hc. split; [done|].
    by eapply compile_flags.
Qed.

(** ** Further properties of [ColumnNameScanner] *)

(** *** Case *)

Lemma fold_eq_newline c : re.fold c = re.newline → c = re.newline.
Proof.
  unfold re.fold, re.newline.
  destruct ((65 <=? c) && (c <=? 90))%N eqn:Hcap.
  { apply andb_true_iff in Hcap as [H1 H2]. apply N.leb_le in H1, H2. lia. }
  destruct (c =? 383)%N; [by vm_compute|].
  destruct (c =? 8490)%N; [by vm_compute|].
  destruct ((c =? 304) || (c =? 305))%N; [by vm_compute|]. done.
Qed.

(** Under [re.IGNORECASE] a match survives any change of the subject that
    keeps the key of every character. *)
Lemma matches_ignorecase_fold r pos w rest w' rest' :
  re.matches re.IGNORECASE r pos w rest →
  re.fold <$> w' = re.fold <$> w →
  re.fold <$> rest' = re.fold <$> rest →
  re.matches re.IGNORECASE r pos w' rest'.
Proof.
  intros Hm. revert w' rest'.
  induction Hm as
    [pos rest|c x pos rest Hm|x pos rest Hx|rest|pos rest He
    |r1 r2 pos w1 w2 rest _ IH1 _ IH2
    |r1 r2 pos w rest _ IH|r1 r2 pos w rest _ IH|r pos w rest _ IH
    |r pos rest|r pos w1 w2 rest Hne _ IH1 _ IH2];
    intros w' rest' Hw Hrest.
  - apply fmap_nil_inv in Hw as ->. constructor.
  - destruct w' as [|x' [|? ?]]; try discriminate Hw.
    injection Hw as Hx'. constructor.
    unfold re.lit_match in *. simpl in *. by rewrite Hx'.
  - destruct w' as [|x' [|? ?]]; try discriminate Hw.
    injection Hw as Hx'. constructor. intros ->.
    apply Hx, fold_eq_newline. by rewrite <- Hx'.
  - apply fmap_nil_inv in Hw as ->. constructor.
  - apply fmap_nil_inv in Hw as ->. constructor.
    apply at_eol_spec in He. apply at_eol_spec.
    destruct He as [-> | ->].
    + left. by apply fmap_nil_inv in Hrest.
    + right. destruct rest' as [|x' [|? ?]]; try discriminate Hrest.
      injection Hrest as Hx'. f_equal. by apply fold_eq_newline.
  - rewrite fmap_app in Hw.
    apply fmap_app_inv in Hw as (w1' & w2' & H1 & H2 & ->).
    assert (Hlen : length w1' = length w1)
      by (by rewrite <- (length_fmap re.fold w1'), <- H1, length_fmap).
    constructor.
    + apply IH1; [done|]. by rewrite !fmap_app, H2, Hrest.
    + rewrite Hlen. by apply IH2.
  - apply re.matches_alt_l. by apply IH.
  - apply re.matches_alt_r. by apply IH.
  - constructor. by apply IH.
  - apply fmap_nil_inv in Hw as ->. constructor.
  - rewrite fmap_app in Hw.
    apply fmap_app_inv in Hw as (w1' & w2' & H1 & H2 & ->).
    assert (Hlen : length w1' = length w1)
      by (by rewrite <- (length_fmap re.fold w1'), <- H1, length_fmap).
    constructor.
    + intros ->. destruct w1; [done|discriminate Hlen].
    + apply IH1; [done|]. by rewrite !fmap_app, H2, Hrest.
    + rewrite Hlen. by apply IH2.
Qed.

Lemma match_ignorecase_fold p text text' :
  re.flags p = re.IGNORECASE →
  re.fold <$> text = re.fold <$> text' →
  is_not_None (re.match_ p text) = is_not_None (re.match_ p text').
Proof.
  intros Hfl Heq.
  assert (Hdir : ∀ t t', re.fold <$> t = re.fold <$> t' →
    re.matches_prefix p t → re.matches_prefix p t').
  { intros t t' Ht (w & rest & Hs & Hm). rewrite Hs, fmap_app in Ht.
    symmetry in Ht.
    apply fmap_app_inv in Ht as (w' & rest' & Hw & Hrest & Hs').
    exists w', rest'. split; [done|]. rewrite Hfl in *.
    by apply (matches_ignorecase_fold _ _ w rest). }
  apply eq_true_iff_eq. rewrite !is_not_None_true, !match_is_Some.
  split; by apply Hdir.
Qed.

Lemma is_None_not_None {A} (o : option A) : is_None o = negb (is_not_None o).
Proof. by destruct o. Qed.

(** The receivers the constructor leaves behind: the class's table, and
    an exclusion filter, if any, compiled with [re.IGNORECASE]. *)
Lemma new_obj exclude_regex lg :
  ∃ exclude,
    obj (ColumnNameScanner.new exclude_regex lg).2
    = ColumnNameScanner.New exclude ColumnNameScanner.regex
    ∧ ∀ ex, exclude = Some ex → re.flags ex = re.IGNORECASE.
Proof.
  destruct exclude_regex as [|pat rest].
  - rewrite new_nil. by exists None.
  - rewrite new_cons.
    destruct (re.compile pat re.IGNORECASE) as [e|ex] eqn:Hc.
    + by exists None.
    + exists (Some ex). split; [done|]. intros ? [= <-].
      by eapply compile_flags.
Qed.

(** X1: the identifier scanner ignores case: for a scanner the constructor
    builds, with no exclusion pattern or with one written in the modelled
    pattern syntax, two inputs that agree character by character up to the
    engine's case comparison (an ASCII letter and its capital; [s] and
    U+017F; [k] and U+212A; [i], U+0130 and U+0131) get the same tags. *)
Theorem scan_case_insensitive exclude_regex text text' lg :
  (ColumnNameScanner.new exclude_regex lg).1 = inr tt →
  re.fold <$> text = re.fold <$> text' →
  (ColumnNameScanner.scan text (ColumnNameScanner.new exclude_regex lg).2).1
  = (ColumnNameScanner.scan text'
       (ColumnNameScanner.new exclude_regex lg).2).1.
Proof.
  intros _ Heq. rewrite !scan_spec. cbn [fst].
  destruct (new_obj exclude_regex lg) as (exclude & -> & Hflags).
  do 2 f_equal. apply set_eq. intros ty.
  rewrite !elem_of_found_types. unfold rule_fires.
  cbn [ColumnNameScanner.self_regex ColumnNameScanner._exclude_regex].
  destruct (dict_get ColumnNameScanner.regex ty) as [rule|] eqn:Hrule;
    [|done].
  apply regex_rule_shape in Hrule as (_ & _ & Hfl & _).
  rewrite (match_ignorecase_fold rule text text' Hfl Heq).
  destruct exclude as [ex|]; [|done].
  by rewrite !is_None_not_None,
    (match_ignorecase_fold ex text text' (Hflags ex eq_refl) Heq).
Qed.

Lemma scan_case_insensitive_witness :
  (ColumnNameScanner.scan (py "First_NAME")
     (ColumnNameScanner.new [py "^tmp_.*$"] []).2).1
  = (ColumnNameScanner.scan (py "first_name")
       (ColumnNameScanner.new [py "^tmp_.*$"] []).2).1.
Proof.
  apply (scan_case_insensitive [py "^tmp_.*$"] (py "First_NAME")
           (py "first_name") []); vm_compute; reflexivity.
Defined.

(** *** Lines and tokens *)

Lemma rule_match_line_iff ty rule text :
  dict_get ColumnNameScanner.regex ty = Some rule →
  (is_Some (re.match_ rule text) ↔
   ∃ line, (text = line ∨ text = line ++ [re.newline])
     ∧ (re.newline ∉ line)
     ∧ ∃ tok, tok ∈ tokens ty
              ∧ contains (re.fold <$> tok) (re.fold <$> line) = true).
Proof.
  intros (body & Hbody & Hfl & Hwords)%regex_rule_shape.
  rewrite match_is_Some. unfold re.matches_prefix.
  rewrite (rule_matches_line rule body text Hbody Hfl)
    by (intros wd Hwd; apply (tokens_single_line ty); by rewrite <- Hwords).
  by rewrite Hwords.
Qed.

Lemma rule_match_single_line ty rule text :
  dict_get ColumnNameScanner.regex ty = Some rule →
  single_line text →
  (is_Some (re.match_ rule text) ↔
   ∃ tok, tok ∈ tokens ty ∧ ci_contains tok text = true).
Proof.
  intros Hrule Hsingle. rewrite (rule_match_line_iff ty rule text Hrule).
  unfold ci_contains. split.
  - intros (line & [<- | Hs] & _ & Htok); [done|].
    exfalso. apply Hsingle. rewrite Hs. apply elem_of_app. right.
    by apply list_elem_of_singleton.
  - intros Htok. exists text. split_and!; [by left|done|done].
Qed.

(** Without an exclusion filter, a tag is found exactly when its rule
    matches. *)
Lemma elem_of_found_types_no_filter text ty :
  ty ∈ found_types
         (ColumnNameScanner.New None ColumnNameScanner.regex) text ↔
  ∃ rule, dict_get ColumnNameScanner.regex ty = Some rule
          ∧ is_Some (re.match_ rule text).
Proof.
  rewrite elem_of_found_types. unfold rule_fires.
  cbn [ColumnNameScanner.self_regex ColumnNameScanner._exclude_regex].
  destruct (dict_get ColumnNameScanner.regex ty) as [rule|].
  - rewrite andb_true_r, is_not_None_true. split; [by eauto|].
    by intros (? & [= <-] & ?).
  - split; [done|]. by intros (? & ? & _).
Qed.

Lemma contains_app sub pre s post :
  contains sub s = true → contains sub (pre ++ s ++ post) = true.
Proof.
  rewrite !contains_spec. intros (p & q & ->).
  exists (pre ++ p), (q ++ post). by rewrite <- !(assoc_L (++)).
Qed.

Lemma contains_trans a b c :
  contains a b = true → contains b c = true → contains a c = true.
Proof.
  intros Hab (p & q & ->)%contains_spec. by apply contains_app.
Qed.

(** X2: with no exclusion filter, putting text before and after an
    identifier, all on one line, never loses a tag: every tag of [text] is
    a tag of [a + text + b]. *)
Theorem scan_monotone (a text b : str) lg :
  single_line a → single_line text → single_line b →
  ∃ types types',
    (ColumnNameScanner.scan text
       (World (ColumnNameScanner.New None ColumnNameScanner.regex) lg)).1
    = inr types
    ∧ (ColumnNameScanner.scan (a ++ text ++ b)
         (World (ColumnNameScanner.New None ColumnNameScanner.regex) lg)).1
      = inr types'
    ∧ types ⊆ types'.
Proof.
  intros Ha Htext Hb. rewrite !scan_spec. cbn [fst obj]. eexists _, _.
  split; [reflexivity|]. split; [reflexivity|]. intros ty.
  rewrite !elem_of_elements, !elem_of_found_types_no_filter.
  intros (rule & Hrule & Hm). exists rule. split; [done|].
  assert (Hall : single_line (a ++ text ++ b)).
  { unfold single_line in *. rewrite !not_elem_of_app. done. }
  apply (rule_match_single_line ty rule _ Hrule Hall).
  apply (rule_match_single_line ty rule _ Hrule Htext) in Hm
    as (tok & Htok & Hc).
  exists tok. split; [done|]. unfold ci_contains in *.
  rewrite !fmap_app. by apply contains_app.
Qed.

Lemma scan_monotone_witness :
  ∃ types types',
    (ColumnNameScanner.scan (py "phone")
       (World (ColumnNameScanner.New None ColumnNameScanner.regex) [])).1
    = inr types
    ∧ (ColumnNameScanner.scan (py "home_" ++ py "phone" ++ py "_2")
         (World (ColumnNameScanner.New None ColumnNameScanner.regex) [])).1
      = inr types'
    ∧ types ⊆ types'.
Proof.
  apply (scan_monotone (py "home_") (py "phone") (py "_2") []);
    unfold single_line; by apply (bool_decide_unpack _).
Defined.

(** X3: with no exclusion filter, one line feed at the end of a one-line
    input goes unnoticed: [text + "\n"] gets the tags of [text]. *)
Theorem scan_trailing_newline (text : str) lg :
  single_line text →
  (ColumnNameScanner.scan (text ++ LF)
     (World (ColumnNameScanner.New None ColumnNameScanner.regex) lg)).1
  = (ColumnNameScanner.scan text
       (World (ColumnNameScanner.New None ColumnNameScanner.regex) lg)).1.
Proof.
  intros Hsingle. rewrite !scan_spec. cbn [fst obj]. do 2 f_equal.
  apply set_eq. intros ty. rewrite !elem_of_found_types_no_filter.
  split; intros (rule & Hrule & Hm); exists rule; (split; [done|]).
  - apply (rule_match_line_iff ty rule _ Hrule) in Hm
      as (line & Hs & Hline & Htok).
    destruct Hs as [Hs|Hs].
    + exfalso. apply Hline. rewrite <- Hs. apply elem_of_app. right.
      by apply list_elem_of_singleton.
    + apply app_inj_tail in Hs as [<- _].
      apply (rule_match_line_iff ty rule _ Hrule). exists text.
      split_and!; [by left|done|done].
  - apply (rule_match_line_iff ty rule _ Hrule) in Hm
      as (line & Hs & Hline & Htok).
    apply (rule_match_line_iff ty rule _ Hrule). exists text.
    split; [by right|].
    destruct Hs as [<- | Hs]; [done|]. exfalso. apply Hsingle.
    rewrite Hs. apply elem_of_app. right. by apply list_elem_of_singleton.
Qed.

Lemma scan_trailing_newline_witness :
  (ColumnNameScanner.scan (py "user_email" ++ LF)
     (World (ColumnNameScanner.New None ColumnNameScanner.regex) [])).1
  = (ColumnNameScanner.scan (py "user_email")
       (World (ColumnNameScanner.New None ColumnNameScanner.regex) [])).1.
Proof.
  apply (scan_trailing_newline (py "user_email") []).
  unfold single_line. by apply (bool_decide_unpack _).
Defined.

(** X4: an input in which a line feed is followed by at least one more
    character gets no tag at all, whatever it contains and whatever the
    exclusion filter is. *)
Theorem scan_embedded_newline exclude (a b : str) lg :
  b ≠ [] →
  (ColumnNameScanner.scan (a ++ LF ++ b)
     (World (ColumnNameScanner.New exclude ColumnNameScanner.regex) lg)).1
  = inr [].
Proof.
  intros Hb. rewrite scan_spec. cbn [fst obj].
  rewrite found_types_no_rule; [by rewrite elements_empty|].
  cbn [ColumnNameScanner.self_regex]. intros ty rule Hrule.
  apply eq_None_not_Some.
  intros (line & Hs & Hline & _)%(rule_match_line_iff ty rule _ Hrule).
  unfold LF in Hs. apply Hline. destruct Hs as [<- | Hs].
  - rewrite !elem_of_app. right. left. by apply list_elem_of_singleton.
  - destruct b as [|c cs _] using rev_ind; [done|].
    rewrite !(assoc_L (++)) in Hs. apply app_inj_tail in Hs as [<- _].
    rewrite !elem_of_app. left. right. by apply list_elem_of_singleton.
Qed.

Lemma scan_embedded_newline_witness :
  (ColumnNameScanner.scan (py "email" ++ LF ++ py "x")
     (World (ColumnNameScanner.New None ColumnNameScanner.regex) [])).1
  = inr [].
Proof. by apply (scan_embedded_newline None (py "email") (py "x") []). Defined.

Lemma ci_contains_tokens_core ty core text :
  core ∈ tokens ty →
  Forall (λ tok, ci_contains core tok = true) (tokens ty) →
  (∃ tok, tok ∈ tokens ty ∧ ci_contains tok text = true) ↔
  ci_contains core text = true.
Proof.
  intros Hcore Hall. split; [|by eauto].
  intros (tok & Htok & Hc). rewrite Forall_forall in Hall.
  unfold ci_contains in *. by eapply contains_trans; [apply Hall|].
Qed.

(** X5: on a one-line input with no exclusion filter, the longer
    alternatives of three rules add nothing: PERSON is reported exactly when
    the input contains [name], EMAIL exactly when it contains [mail], and
    USER_NAME exactly when it contains [user], characters being compared
    as the engine compares them under [IGNORECASE] (an ASCII letter and
    its capital; [s] and U+017F; [k] and U+212A; [i], U+0130 and
    U+0131). *)
Theorem scan_rules_reduce_to_core_token (text : str) lg :
  single_line text →
  ∃ types,
    (ColumnNameScanner.scan text
       (World (ColumnNameScanner.New None ColumnNameScanner.regex) lg)).1
    = inr types
    ∧ (PERSON ∈ types ↔ ci_contains (py "name") text = true)
    ∧ (EMAIL ∈ types ↔ ci_contains (py "mail") text = true)
    ∧ (USER_NAME ∈ types ↔ ci_contains (py "user") text = true).
Proof.
  intros Hsingle. rewrite scan_spec. cbn [fst obj]. eexists.
  split; [reflexivity|].
  assert (Hcore : ∀ ty core,
    is_Some (dict_get ColumnNameScanner.regex ty) →
    core ∈ tokens ty →
    Forall (λ tok, ci_contains core tok = true) (tokens ty) →
    ty ∈ elements
           (found_types
              (ColumnNameScanner.New None ColumnNameScanner.regex) text) ↔
    ci_contains core text = true).
  { intros ty core [rule Hrule] Hin Hall.
    rewrite elem_of_elements, elem_of_found_types_no_filter.
    rewrite <- (ci_contains_tokens_core ty core text Hin Hall).
    rewrite <- (rule_match_single_line ty rule text Hrule Hsingle).
    split; [|by eauto]. intros (rule0 & Heq & Hm).
    rewrite Hrule in Heq. by injection Heq as <-. }
  split_and!; apply Hcore.
  all: try (eexists; vm_compute; reflexivity).
  all: try (unfold tokens; rewrite !fmap_cons;
            repeat (apply Forall_cons; split; [vm_compute; reflexivity|]);
            apply Forall_nil_2).
  - unfold tokens. rewrite !fmap_cons.
    do 9 apply list_elem_of_further. apply list_elem_of_here.
  - unfold tokens. rewrite !fmap_cons.
    do 2 apply list_elem_of_further. apply list_elem_of_here.
  - unfold tokens. rewrite !fmap_cons.
    do 2 apply list_elem_of_further. apply list_elem_of_here.
Qed.

Lemma scan_rules_reduce_to_core_token_witness :
  ∃ types,
    (ColumnNameScanner.scan (py "nickname")
       (World (ColumnNameScanner.New None ColumnNameScanner.regex) [])).1
    = inr types
    ∧ (PERSON ∈ types ↔ ci_contains (py "name") (py "nickname") = true)
    ∧ (EMAIL ∈ types ↔ ci_contains (py "mail") (py "nickname") = true)
    ∧ (USER_NAME ∈ types ↔ ci_contains (py "user") (py "nickname") = true).
Proof.
  apply (scan_rules_reduce_to_core_token (py "nickname") []).
  unfold single_line. by apply (bool_decide_unpack _).
Defined.

(** *** What a scan can return, and what it logs *)

Lemma regex_keys_length : length (dict_keys ColumnNameScanner.regex) = 11.
Proof. reflexivity. Qed.

(** X6: whatever the input and the exclusion filter, the identifier scanner
    returns no tag twice, only tags that have a rule in the table, hence at
    most eleven, and never CREDIT_CARD, for which the table has no rule. *)
Theorem scan_tags_universe exclude text lg :
  ∃ types,
    (ColumnNameScanner.scan text
       (World (ColumnNameScanner.New exclude ColumnNameScanner.regex) lg)).1
    = inr types
    ∧ NoDup types
    ∧ types ⊆ dict_keys ColumnNameScanner.regex
    ∧ (length types ≤ 11)%nat
    ∧ CREDIT_CARD ∉ types.
Proof.
  rewrite scan_spec. cbn [fst obj]. eexists. split; [reflexivity|].
  assert (Hsub : elements
      (found_types
         (ColumnNameScanner.New exclude ColumnNameScanner.regex) text)
    ⊆ dict_keys ColumnNameScanner.regex).
  { intros ty. rewrite elem_of_elements. unfold found_types.
    rewrite elem_of_list_to_set. by intros [_ ?]%list_elem_of_filter. }
  split_and!; [apply NoDup_elements|done| |].
  - rewrite <- regex_keys_length. apply submseteq_length, NoDup_submseteq;
      [apply NoDup_elements|done].
  - intros Hin%Hsub. revert Hin. by apply (bool_decide_unpack _).
Qed.

(** X7: a scan of the identifier scanner writes exactly one debug message,
    after the loop: ["PiiTypes are "] followed by the tags it returns, in
    the order it returns them, separated by commas. *)
Theorem column_scan_log (w : world ColumnNameScanner.t) text :
  ∃ types,
    ColumnNameScanner.scan text w =
    (inr types,
     World (obj w)
       (log w
        ++ [py "PiiTypes are "
            ++ str_join (py ",") (PiiTypes_str <$> types)])).
Proof. rewrite scan_spec. by eexists. Qed.

(** X8: a scan of the entity scanner writes, in this order, one message
    with the text, one message per recognised entity with its label
    (mapped or not, in document order), and one message with the tags it
    returns; when the pipeline raises, only the first message is written
    and the exception goes on to the caller. *)
Theorem ner_scan_log (w : world NERScanner.t) text :
  match NERScanner.nlp (obj w) text with
  | inr doc =>
      ∃ types,
        NERScanner.scan text w =
        (inr types,
         World (obj w)
           (log w
            ++ [py "Processing '" ++ text ++ py "'"]
            ++ ((λ ent, py "Found " ++ label_ ent) <$> ents doc)
            ++ [py "PiiTypes are "
                ++ str_join (py ",") (PiiTypes_str <$> types)]))
        ∧ length (log (NERScanner.scan text w).2)
          = (length (log w) + length (ents doc) + 2)%nat
  | inl e =>
      NERScanner.scan text w =
      (inl e, World (obj w) (log w ++ [py "Processing '" ++ text ++ py "'"]))
  end.
Proof.
  rewrite ner_scan_spec.
  destruct (NERScanner.nlp (obj w) text) as [e|doc]; [done|].
  eexists. split; [reflexivity|].
  cbn [snd log]. rewrite !length_app, length_fmap. simpl. lia.
Qed.

(** X10: an exclusion pattern that can match the empty string at the start
    (the empty pattern, [.*], [x*], ...) silences the scanner: it returns
    no tag for any input. *)
Theorem nullable_exclusion_vetoes_all pat exclude rest text lg :
  re.compile pat re.IGNORECASE = inr exclude →
  nullable (re.ast exclude) = true →
  (ColumnNameScanner.scan text
     (ColumnNameScanner.new (pat :: rest) lg).2).1
  = inr [].
Proof.
  intros Hc Hnull. rewrite scan_spec, new_cons, Hc. cbn [fst snd obj].
  rewrite found_types_exclude_match; [by rewrite elements_empty|].
  apply match_is_Some. exists [], text. split; [done|].
  clear Hc. generalize text as s. revert Hnull.
  generalize (re.flags exclude) as fl.
  induction (re.ast exclude) as [ | | | | |r1 IH1 r2 IH2|r1 IH1 r2 IH2| |r IH];
    intros fl Hnull s; simpl in Hnull; try discriminate Hnull.
  - constructor.
  - constructor.
  - apply andb_true_iff in Hnull as [H1 H2].
    apply (re.matches_seq fl r1 r2 0 [] [] s); [by apply IH1|by apply IH2].
  - apply orb_true_iff in Hnull as [H1|H2].
    + apply re.matches_alt_l. by apply IH1.
    + apply re.matches_alt_r. by apply IH2.
  - constructor.
  - constructor. by apply IH.
Qed.

Lemma nullable_exclusion_vetoes_all_witness :
  (ColumnNameScanner.scan (py "user_email")
     (ColumnNameScanner.new [py ".*"] []).2).1
  = inr [].
Proof.
  eapply (nullable_exclusion_vetoes_all (py ".*") _ [] (py "user_email") []).
  - vm_compute. reflexivity.
  - reflexivity.
Defined.

(** ** Further properties of [RegexScanner] and [NERScanner] *)

(** X9: on a text that is not empty, [RegexScanner.scan] returns exactly
    the categories for which the library found at least one match, each
    once and in the fixed order PHONE, EMAIL, CREDIT_CARD, ADDRESS. *)
Theorem regex_scan_order (findall : str → exn + Found) text f
  (w : world RegexScanner.t) :
  text ≠ [] →
  findall text = inr f →
  ∃ types,
    RegexScanner.scan (commonregex.CommonRegex findall) text w
    = (inr types, w)
    ∧ types `sublist_of` [PHONE; EMAIL; CREDIT_CARD; ADDRESS]
    ∧ (∀ ty, ty ∈ types ↔
         (ty = PHONE ∧ found_phones f ≠ [])
         ∨ (ty = EMAIL ∧ found_emails f ≠ [])
         ∨ (ty = CREDIT_CARD ∧ found_credit_cards f ≠ [])
         ∨ (ty = ADDRESS ∧ found_street_addresses f ≠ [])).
Proof.
  intros Htext Hf.
  rewrite regex_scan_types, (CommonRegex_nonempty findall text Htext), Hf.
  cbn [phones emails credit_cards street_addresses attr_truthy].
  eexists. split; [reflexivity|]. split.
  - destruct (truthy (found_phones f)), (truthy (found_emails f)),
      (truthy (found_credit_cards f)), (truthy (found_street_addresses f));
      cbn [app]; repeat constructor.
  - intros ty.
    by rewrite !elem_of_app, !elem_of_if_singleton, !truthy_true.
Qed.

Lemma regex_scan_order_witness :
  ∃ types,
    RegexScanner.scan
      (commonregex.CommonRegex
         (λ _, inr (Build_Found [] [py "a@b.io"] [] [py "1 Main Street"])))
      (py "a@b.io, 1 Main Street") (World RegexScanner.New [])
    = (inr types, World RegexScanner.New [])
    ∧ types `sublist_of` [PHONE; EMAIL; CREDIT_CARD; ADDRESS]
    ∧ (∀ ty, ty ∈ types ↔
         (ty = PHONE ∧ @nil str ≠ [])
         ∨ (ty = EMAIL ∧ [py "a@b.io"] ≠ [])
         ∨ (ty = CREDIT_CARD ∧ @nil str ≠ [])
         ∨ (ty = ADDRESS ∧ [py "1 Main Street"] ≠ [])).
Proof.
  apply (regex_scan_order
           (λ _, inr (Build_Found [] [py "a@b.io"] [] [py "1 Main Street"]))
           (py "a@b.io, 1 Main Street")
           (Build_Found [] [py "a@b.io"] [] [py "1 Main Street"])
           (World RegexScanner.New [])).
  - by vm_compute.
  - reflexivity.
Defined.

(** X11: the entity scanner looks at labels only, as a set: two documents
    with the same labels, in whatever order and however often, give the
    same tags. *)
Theorem ner_scan_labels_only (pipeline pipeline' : str → Doc)
  text text' lg lg' :
  (∀ l, l ∈ label_ <$> ents (pipeline text)
        ↔ l ∈ label_ <$> ents (pipeline' text')) →
  (NERScanner.scan text
     (World (NERScanner.New (λ text, inr (pipeline text))) lg)).1
  = (NERScanner.scan text'
       (World (NERScanner.New (λ text, inr (pipeline' text))) lg')).1.
Proof.
  intros Hlabels. rewrite !ner_scan_spec. cbn [fst obj NERScanner.nlp].
  do 2 f_equal. apply set_eq. intros ty. unfold entity_types.
  rewrite !elem_of_list_to_set, !list_elem_of_omap.
  split; intros (ent & Hent & Hty).
  - assert (Hl : label_ ent ∈ label_ <$> ents (pipeline' text'))
      by (apply Hlabels, list_elem_of_fmap; eauto).
    apply list_elem_of_fmap in Hl as (ent' & Heq & Hent').
    exists ent'. by rewrite <- Heq.
  - assert (Hl : label_ ent ∈ label_ <$> ents (pipeline text))
      by (apply Hlabels, list_elem_of_fmap; eauto).
    apply list_elem_of_fmap in Hl as (ent' & Heq & Hent').
    exists ent'. by rewrite <- Heq.
Qed.

Lemma ner_scan_labels_only_witness :
  (NERScanner.scan (py "a")
     (World (NERScanner.New (λ text, inr ((λ _,
        {| ents := [ {| label_ := py "DATE" |}; {| label_ := py "PERSON" |};
                     {| label_ := py "DATE" |} ] |}) text))) [])).1
  = (NERScanner.scan (py "b")
       (World (NERScanner.New (λ text, inr ((λ _,
          {| ents := [ {| label_ := py "PERSON" |};
                       {| label_ := py "DATE" |} ] |}) text))) [])).1.
Proof.
  apply (ner_scan_labels_only
           (λ _, {| ents := [ {| label_ := py "DATE" |};
                              {| label_ := py "PERSON" |};
                              {| label_ := py "DATE" |} ] |})
           (λ _, {| ents := [ {| label_ := py "PERSON" |};
                              {| label_ := py "DATE" |} ] |})
           (py "a") (py "b") [] []).
  intros l. cbn [ents fmap list_fmap label_].
  rewrite !elem_of_cons, elem_of_nil. tauto.
Defined.

(** ** Worked examples *)

Example scan_user_email lg :
  (ColumnNameScanner.scan (py "user_email") (ColumnNameScanner.new [] lg).2).1
  = inr [USER_NAME; EMAIL].
Proof.
  rewrite scan_spec, new_nil. cbn [fst snd obj]. vm_compute. reflexivity.
Qed.

Example scan_user_email_excluded lg :
  (ColumnNameScanner.scan (py "user_email")
     (ColumnNameScanner.new [py "^user_.*$"] lg).2).1
  = inr [].
Proof.
  rewrite scan_spec, new_cons. cbn [fst snd obj]. vm_compute. reflexivity.
Qed.

Example scan_mobile_phone_country lg :
  (ColumnNameScanner.scan (py "mobile_phone_country")
     (ColumnNameScanner.new [] lg).2).1
  = inr [ADDRESS; PHONE].
Proof.
  rewrite scan_spec, new_nil. cbn [fst snd obj]. vm_compute. reflexivity.
Qed.

Example init_rejects_bad_pattern lg :
  (ColumnNameScanner.new [py "(user"] lg).1
  = inl (re_error "missing ), unterminated subpattern").
Proof. rewrite new_cons. vm_compute. reflexivity. Qed.

(** Outside ASCII: the long s and the dotless i are matched by the rules
    for [pass] and [mail]. *)
Example scan_long_s_dotless_i lg :
  (ColumnNameScanner.scan (py "pa" ++ [383; 383]%N ++ py "word")
     (ColumnNameScanner.new [] lg).2).1
  = inr [PASSWORD]
  ∧ (ColumnNameScanner.scan (py "ma" ++ [305]%N ++ py "l")
       (ColumnNameScanner.new [] lg).2).1
    = inr [EMAIL].
Proof.
  rewrite !scan_spec, new_nil. cbn [fst snd obj].
  split; vm_compute; reflexivity.
Qed.
